(** * Non-standard dice: generator, comparator, relation graph and reducer

    A shallow embedding of [main.py].  Python integers are unbounded, so
    face values, counters and the number of sides are [Z].  A die is a
    Python tuple of integers, modelled as [list Z].  Generators are
    modelled by the finite list of the values they yield, in yield order.
    The relation graph is an insertion-ordered Python dictionary whose
    values are pairs of lists; it is modelled as an association list in
    insertion order, because [clean] iterates [graph.items()] and
    [list.remove] is sensitive to repeated entries. *)

From Stdlib Require Import Ascii String DecimalString.
From Stdlib Require Import ZArith List Lia Bool Sorted Permutation.
Import ListNotations.

Local Open Scope Z_scope.

(** ** Data model *)

Definition die : Type := list Z.

Definition die_eq_dec : forall a b : die, {a = b} + {a <> b} :=
  list_eq_dec Z.eq_dec.

(** Default values of the module. *)
Definition MIN_VALUE : Z := 0.
Definition MAX_VALUE : Z := 4.
Definition SIDES : Z := 4.

(** ** Die generator *)

(** Python's [range(start, stop)]: [start, start+1, ..., stop-1], empty
    when [stop <= start]. *)
Definition range (start stop : Z) : list Z :=
  map (fun i => start + Z.of_nat i) (seq 0 (Z.to_nat (stop - start))).

(** The body of a [for x in l: yield from f x] loop, where producing the
    values of [f x] may fail to return. *)
Fixpoint for_yield {A B : Type} (f : A -> option (list B)) (l : list A)
  : option (list B) :=
  match l with
  | [] => Some []
  | x :: l' =>
      match f x, for_yield f l' with
      | Some ys, Some zs => Some (ys ++ zs)
      | _, _ => None
      end
  end.

(** [die_generator fuel min_value max_value sides]: the sequence of dice
    the generator yields.  [sides] is an arbitrary integer and the source
    recurses on [sides - 1] until it meets [sides == 1], which never
    happens from [sides <= 0]; [fuel] bounds the recursion depth and
    [None] means the bound was hit. *)
Fixpoint die_generator (fuel : nat) (min_value max_value sides : Z)
  : option (list die) :=
  match fuel with
  | O => None
  | S fuel' =>
      for_yield
        (fun first_side =>
           if sides =? 1 then Some [[first_side]]
           else
             match die_generator fuel' 0 first_side (sides - 1) with
             | Some gen => Some (map (fun die => first_side :: die) gen)
             | None => None
             end)
        (range min_value (max_value + 1))
  end.

(** The same sequence by structural recursion on [sides - 1]; it is
    shown below to be what [die_generator] returns when [1 <= sides]. *)
Fixpoint dice (n : nat) (min_value max_value : Z) : list die :=
  match n with
  | O => flat_map (fun first_side => [[first_side]]) (range min_value (max_value + 1))
  | S n' =>
      flat_map
        (fun first_side => map (fun die => first_side :: die) (dice n' 0 first_side))
        (range min_value (max_value + 1))
  end.

(** ** Pairwise comparator *)

(** [sum(1 for side2 in oponent if p side2)]. *)
Definition sum_if (p : Z -> bool) (oponent : die) : Z :=
  fold_left (fun acc side2 => if p side2 then acc + 1 else acc) oponent 0.

(** The loop of [is_best]: the pair [(count, ties)] after visiting the
    sides of [this], starting from the given accumulators. *)
Definition count_loop (this oponent : die) (acc : Z * Z) : Z * Z :=
  fold_left
    (fun '(count, ties) side1 =>
       (count + sum_if (fun side2 => side1 >? side2) oponent,
        ties + sum_if (fun side2 => side1 =? side2) oponent))
    this acc.

Definition is_best (this oponent : die) : bool :=
  let total := Z.of_nat (length this) * Z.of_nat (length oponent) in
  let '(count, ties) := count_loop this oponent (0, 0) in
  count >? total - ties - count.

(** *** Face pairs, as the specification counts them *)

(** All ordered face pairs of two dice. *)
Definition face_pairs (A B : die) : list (Z * Z) := list_prod A B.

(** A relation between faces, read on a face pair. *)
Definition on_pair (p : Z -> Z -> bool) (ab : Z * Z) : bool := p (fst ab) (snd ab).

(** Number of ordered face pairs satisfying [p]. *)
Definition pairs_where (p : Z -> Z -> bool) (A B : die) : Z :=
  Z.of_nat (length (filter (on_pair p) (face_pairs A B))).

Definition wins (A B : die) : Z := pairs_where Z.gtb A B.
Definition ties (A B : die) : Z := pairs_where Z.eqb A B.
Definition losses (A B : die) : Z := pairs_where Z.ltb A B.

(** ** Relation graph *)

(** The value stored for a die: [(win_against, lose_against)]. *)
Definition entry : Type := (list die * list die)%type.

(** The dictionary, as its items in insertion order. *)
Definition graph : Type := list (die * entry).

Fixpoint lookup (g : graph) (k : die) : option entry :=
  match g with
  | [] => None
  | (k', v) :: g' => if die_eq_dec k' k then Some v else lookup g' k
  end.

(** Reading [graph[k]] on the [defaultdict]: a missing key is first
    inserted, last in order, with the factory's value [([], [])]. *)
Definition touch (g : graph) (k : die) : graph :=
  match lookup g k with
  | Some _ => g
  | None => g ++ [(k, ([], []))]
  end.

(** In-place change of the lists stored under [k]. *)
Fixpoint update (g : graph) (k : die) (f : entry -> entry) : graph :=
  match g with
  | [] => []
  | (k', v) :: g' =>
      if die_eq_dec k' k then (k', f v) :: g' else (k', v) :: update g' k f
  end.

(** [graph[this][0].append(oponent)] *)
Definition append_win (g : graph) (this oponent : die) : graph :=
  update (touch g this) this (fun v => (fst v ++ [oponent], snd v)).

(** [graph[oponent][1].append(this)] *)
Definition append_lose (g : graph) (oponent this : die) : graph :=
  update (touch g oponent) oponent (fun v => (fst v, snd v ++ [this])).

(** The body of the inner loop of [main] for one ordered pair. *)
Definition compare_pair (g : graph) (this oponent : die) : graph :=
  if is_best this oponent
  then append_lose (append_win g this oponent) oponent this
  else g.

(** The two nested loops of [main] over the generated dice. *)
Definition build_from (dice : list die) (g : graph) : graph :=
  fold_left
    (fun g this => fold_left (fun g oponent => compare_pair g this oponent) dice g)
    dice g.

Definition build (dice : list die) : graph := build_from dice [].

(** The same loops, run over a sequence of ordered pairs; the graph
    after any prefix of the cross product is a state reached during
    construction. *)
Definition build_pairs (pairs : list (die * die)) (g : graph) : graph :=
  fold_left (fun g p => compare_pair g (fst p) (snd p)) pairs g.

(** The states of the graph during and after construction over [dice]:
    after each ordered pair has been handled, and between the two
    [append]s of a decisive pair. *)
Inductive during_build (dice : list die) : graph -> Prop :=
| after_pairs : forall done todo,
    list_prod dice dice = done ++ todo ->
    during_build dice (build_pairs done [])
| between_appends : forall done this oponent todo,
    list_prod dice dice = done ++ (this, oponent) :: todo ->
    is_best this oponent = true ->
    during_build dice (append_win (build_pairs done []) this oponent).

(** ** Graph reducer *)

(** [len(l) == 0] *)
Definition is_empty {A : Type} (l : list A) : bool :=
  match l with
  | [] => true
  | _ :: _ => false
  end.

(** [[die for die, (w, l) in graph.items() if len(w) == 0 or len(l) == 0]] *)
Definition to_delete (g : graph) : list die :=
  map fst (filter (fun kv => is_empty (fst (snd kv)) || is_empty (snd (snd kv))) g).

(** [del graph[die]].  A missing key would raise [KeyError]; the keys
    passed here are those of the dictionary itself. *)
Fixpoint del (g : graph) (k : die) : graph :=
  match g with
  | [] => []
  | (k', v) :: g' => if die_eq_dec k' k then g' else (k', v) :: del g' k
  end.

(** [l.remove(d)]: drops the first occurrence of [d]. *)
Fixpoint remove_first (d : die) (l : list die) : list die :=
  match l with
  | [] => []
  | x :: l' => if die_eq_dec x d then l' else x :: remove_first d l'
  end.

(** [if d in l: l.remove(d)] *)
Definition discard (d : die) (l : list die) : list die :=
  if in_dec die_eq_dec d l then remove_first d l else l.

(** The inner loop [for die in to_delete] on one pair of lists. *)
Definition prune (deleted : list die) (v : entry) : entry :=
  fold_left (fun v die => (discard die (fst v), discard die (snd v))) deleted v.

(** One pass of the loop of [clean] with a non-empty [to_delete]. *)
Definition pass (g : graph) : graph :=
  let deleted := to_delete g in
  map (fun kv => (fst kv, prune deleted (snd kv))) (fold_left del deleted g).

(** The [while True] loop of [clean]; [fuel] bounds the number of
    iterations and [None] means the bound was hit. *)
Fixpoint clean (fuel : nat) (g : graph) : option graph :=
  match fuel with
  | O => None
  | S fuel' =>
      if is_empty (to_delete g) then Some g else clean fuel' (pass g)
  end.

(** The graph held by [main] when it starts printing. *)
Definition main_graph (fuel : nat) : option graph :=
  match die_generator fuel MIN_VALUE MAX_VALUE SIDES with
  | Some dice => clean fuel (build dice)
  | None => None
  end.

(** ** Properties stated by the specification *)

(** Non-increasing faces. *)
Definition non_increasing (d : die) : Prop := Sorted Z.ge d.

(** Every face within [[lo, hi]]. *)
Definition within (lo hi : Z) (d : die) : Prop := Forall (fun x => lo <= x <= hi) d.

(** Binomial coefficient, by Pascal's rule. *)
Fixpoint binom (n k : nat) : nat :=
  match n, k with
  | _, O => 1
  | O, S _ => 0
  | S n', S k' => binom n' k' + binom n' k
  end%nat.

(** Order of Python tuples: lexicographic, a proper prefix first. *)
Fixpoint lex_lt (a b : die) : Prop :=
  match a, b with
  | _, [] => False
  | [], _ :: _ => True
  | x :: a', y :: b' => x < y \/ (x = y /\ lex_lt a' b')
  end.

(** The sequence goes up in tuple order: smaller first face first, and
    so on for the remaining faces. *)
Definition ascending_order (ds : list die) : Prop := StronglySorted lex_lt ds.

(** The sequence goes down in tuple order: greater first face first, and
    so on for the remaining faces. *)
Definition descending_order (ds : list die) : Prop :=
  StronglySorted (fun d e => lex_lt e d) ds.

(** [d] is yielded at an earlier position than [e]. *)
Definition yielded_before (ds : list die) (d e : die) : Prop :=
  exists i j, (i < j)%nat /\ nth_error ds i = Some d /\ nth_error ds j = Some e.

(** The key [k] is in the dictionary. *)
Definition in_graph (g : graph) (k : die) : Prop := lookup g k <> None.

Definition win_list (g : graph) (k : die) : list die :=
  match lookup g k with Some v => fst v | None => [] end.

Definition lose_list (g : graph) (k : die) : list die :=
  match lookup g k with Some v => snd v | None => [] end.

(** The keys of the dictionary, in insertion order. *)
Definition keys (g : graph) : list die := map fst g.

(** Every recorded edge comes from a decisive pair among [done]. *)
Definition recorded (g : graph) (done : list (die * die)) : Prop :=
  forall A B, In B (win_list g A) \/ In A (lose_list g B) ->
    In (A, B) done /\ is_best A B = true.

(** Each edge sits in both lists. *)
Definition mirrored (g : graph) : Prop :=
  forall A B, In B (win_list g A) <-> In A (lose_list g B).

(** The lists reached through any key have no repeated entry. *)
Definition lists_NoDup (g : graph) : Prop :=
  forall k, NoDup (win_list g k) /\ NoDup (lose_list g k).

(** The win and lose lists mirror each other on the dice of the graph. *)
Definition symmetric (g : graph) : Prop :=
  forall A B, in_graph g A -> in_graph g B ->
    (In B (win_list g A) <-> In A (lose_list g B)).

(** No list of the graph has a repeated entry. *)
Definition no_repeats (g : graph) : Prop :=
  forall k v, In (k, v) g -> NoDup (fst v) /\ NoDup (snd v).

(** Every die of the graph both wins and loses. *)
Definition all_mixed (g : graph) : Prop :=
  forall k v, In (k, v) g -> fst v <> [] /\ snd v <> [].

(** Every die named in a list is itself a key of the dictionary. *)
Definition closed (g : graph) : Prop :=
  forall A B, In B (win_list g A) \/ In B (lose_list g A) -> in_graph g B.

(** A set of dice each of which beats a die of the set and is beaten by
    a die of the set. *)
Definition self_supporting (g : graph) (S : list die) : Prop :=
  forall s, In s S ->
    (exists t, In t S /\ In t (win_list g s)) /\
    (exists t, In t S /\ In t (lose_list g s)).

(** ** Reporter *)

(** Python's [<=] between two tuples of integers. *)
Fixpoint tuple_leb (a b : die) : bool :=
  match a, b with
  | [], _ => true
  | _ :: _, [] => false
  | x :: a', y :: b' => (x <? y) || ((x =? y) && tuple_leb a' b')
  end.

Fixpoint insert_sorted (d : die) (l : list die) : list die :=
  match l with
  | [] => [d]
  | e :: l' => if tuple_leb d e then d :: e :: l' else e :: insert_sorted d l'
  end.

(** The builtin [sorted] on tuples of integers: the items in ascending
    tuple order.  Tuples that compare equal are equal, so the result
    does not depend on the sorting method; insertion is used here. *)
Definition sorted (l : list die) : list die := fold_right insert_sorted [] l.

(** [str(z)]: the decimal digits of [z], after a minus sign when [z] is
    negative. *)
Definition str (z : Z) : string := NilZero.string_of_int (Z.to_int z).

(** ["".join(map(str, die))] *)
Definition die_name (d : die) : string :=
  fold_right String.append EmptyString (map str d).

(** ["{} > {}".format(this_name, oponent_name)] *)
Definition line (this_name oponent_name : string) : string :=
  String.append this_name (String.append " > " oponent_name).

(** The printing loops of [main]: the lines written, in order. *)
Definition report (g : graph) : list string :=
  flat_map
    (fun this =>
       let this_name := die_name this in
       map (fun oponent => line this_name (die_name oponent))
           (sorted (win_list g this)))
    (sorted (keys g)).

(** The pairs [(this, oponent)] the printing loops visit, in order. *)
Definition report_pairs (g : graph) : list (die * die) :=
  flat_map (fun this => map (fun oponent => (this, oponent)) (sorted (win_list g this)))
           (sorted (keys g)).

(** The whole program: the lines [main] prints. *)
Definition main (fuel : nat) : option (list string) :=
  match main_graph fuel with
  | Some g => Some (report g)
  | None => None
  end.

(** [a <= b] between tuples. *)
Definition tuple_le (a b : die) : Prop := lex_lt a b \/ a = b.

(** Order of the printed pairs: by the first die, then by the second. *)
Definition pair_le (p q : die * die) : Prop :=
  lex_lt (fst p) (fst q) \/ (fst p = fst q /\ tuple_le (snd p) (snd q)).

(** * Comparator *)

Lemma sum_if_from (q : Z -> bool) (l : die) (acc : Z) :
  fold_left (fun acc side2 => if q side2 then acc + 1 else acc) l acc
  = acc + Z.of_nat (length (filter q l)).
Proof.
  revert acc; induction l as [|x l IH]; intros acc; simpl.
  - lia.
  - rewrite IH. destruct (q x); simpl length; lia.
Qed.

Lemma sum_if_filter (q : Z -> bool) (l : die) :
  sum_if q l = Z.of_nat (length (filter q l)).
Proof. unfold sum_if. rewrite sum_if_from. lia. Qed.

Section Counting.

Variable p : Z -> Z -> bool.

Lemma filter_row (a : Z) (B : die) :
  length (filter (on_pair p) (map (fun y => (a, y)) B))
  = length (filter (p a) B).
Proof.
  induction B as [|b B IH]; simpl; [reflexivity|].
  unfold on_pair at 1; simpl. destruct (p a b); simpl; rewrite IH; reflexivity.
Qed.

Lemma pairs_where_nil_l (B : die) : pairs_where p [] B = 0.
Proof. reflexivity. Qed.

Lemma pairs_where_cons_l (a : Z) (A B : die) :
  pairs_where p (a :: A) B = sum_if (p a) B + pairs_where p A B.
Proof.
  unfold pairs_where, face_pairs; simpl.
  rewrite filter_app, length_app, Nat2Z.inj_add.
  rewrite filter_row, sum_if_filter. reflexivity.
Qed.

Lemma pairs_where_nil_r (A : die) : pairs_where p A [] = 0.
Proof.
  induction A as [|a A IH]; [reflexivity|].
  rewrite pairs_where_cons_l, IH. reflexivity.
Qed.

Lemma pairs_where_cons_r (b : Z) (A B : die) :
  pairs_where p A (b :: B)
  = sum_if (fun a => p a b) A + pairs_where p A B.
Proof.
  induction A as [|a A IH].
  - reflexivity.
  - rewrite !pairs_where_cons_l, IH.
    rewrite !sum_if_filter; simpl.
    destruct (p a b); simpl length; lia.
Qed.

End Counting.

(** Counting over [A x B] with [p] is counting over [B x A] with [p]
    read right to left. *)
Lemma pairs_where_swap (p : Z -> Z -> bool) (A B : die) :
  pairs_where p A B = pairs_where (fun b a => p a b) B A.
Proof.
  induction A as [|a A IH].
  - rewrite pairs_where_nil_r. reflexivity.
  - rewrite pairs_where_cons_l, pairs_where_cons_r, IH. reflexivity.
Qed.

Lemma losses_swap (A B : die) : losses A B = wins B A.
Proof.
  unfold losses, wins. rewrite pairs_where_swap.
  unfold pairs_where. do 2 f_equal. apply filter_ext.
  intros [b a]; unfold on_pair; simpl. rewrite Z.gtb_ltb. reflexivity.
Qed.

Lemma ties_swap (A B : die) : ties A B = ties B A.
Proof.
  unfold ties. rewrite pairs_where_swap.
  unfold pairs_where. do 2 f_equal. apply filter_ext.
  intros [b a]; unfold on_pair; simpl. apply Z.eqb_sym.
Qed.

(** Every face pair is a win, a tie or a loss, and only one of them. *)
Lemma trichotomy_count (l : list (Z * Z)) :
  (length (filter (on_pair Z.gtb) l)
   + length (filter (on_pair Z.eqb) l)
   + length (filter (on_pair Z.ltb) l) = length l)%nat.
Proof.
  induction l as [|[a b] l IH]; unfold on_pair in *; simpl; [reflexivity|].
  destruct (Z.gtb_spec a b), (Z.eqb_spec a b), (Z.ltb_spec a b);
    simpl; lia.
Qed.

Lemma wins_ties_losses (A B : die) :
  wins A B + ties A B + losses A B
  = Z.of_nat (length A) * Z.of_nat (length B).
Proof.
  unfold wins, ties, losses, pairs_where, face_pairs.
  pose proof (trichotomy_count (list_prod A B)) as H.
  rewrite length_prod in H. nia.
Qed.

(** The accumulators of the loop of [is_best] hold the two counts. *)
Lemma count_loop_spec (this oponent : die) (count0 ties0 : Z) :
  count_loop this oponent (count0, ties0)
  = (count0 + wins this oponent, ties0 + ties this oponent).
Proof.
  unfold count_loop.
  revert count0 ties0; induction this as [|a this IH]; intros c t;
    cbn [fold_left].
  - unfold wins, ties. rewrite !pairs_where_nil_l. f_equal; lia.
  - rewrite IH. unfold wins, ties. rewrite !pairs_where_cons_l.
    rewrite !Z.add_assoc. reflexivity.
Qed.

Lemma is_best_counts (A B : die) :
  is_best A B
  = (wins A B >? Z.of_nat (length A) * Z.of_nat (length B) - ties A B - wins A B).
Proof.
  unfold is_best. rewrite count_loop_spec. reflexivity.
Qed.

Lemma is_best_wins_losses (A B : die) :
  is_best A B = true <-> wins A B > losses A B.
Proof.
  rewrite is_best_counts. pose proof (wins_ties_losses A B).
  destruct (Z.gtb_spec (wins A B)
              (Z.of_nat (length A) * Z.of_nat (length B) - ties A B - wins A B));
    split; intros; try lia; try discriminate; reflexivity.
Qed.

Lemma is_best_one_way (A B : die) :
  is_best A B = true -> is_best B A = false.
Proof.
  intros H. apply is_best_wins_losses in H.
  destruct (is_best B A) eqn:E; [|reflexivity].
  apply is_best_wins_losses in E.
  rewrite losses_swap in H, E. lia.
Qed.

Lemma is_best_self (A : die) : is_best A A = false.
Proof.
  destruct (is_best A A) eqn:E; [|reflexivity].
  pose proof (is_best_one_way A A E). congruence.
Qed.

(** * Die generator *)

Lemma range_nil (a b : Z) : b <= a -> range a b = [].
Proof.
  intros H. unfold range. replace (Z.to_nat (b - a)) with O by lia. reflexivity.
Qed.

Lemma range_cons (a b : Z) : a < b -> range a b = a :: range (a + 1) b.
Proof.
  intros H. unfold range.
  replace (Z.to_nat (b - a)) with (S (Z.to_nat (b - (a + 1)))) by lia.
  simpl. f_equal; [lia|].
  rewrite <- seq_shift, map_map. apply map_ext. intros i. lia.
Qed.

Lemma range_snoc (a b : Z) : a <= b -> range a (b + 1) = range a b ++ [b].
Proof.
  intros H. unfold range.
  replace (Z.to_nat (b + 1 - a)) with (Z.to_nat (b - a) + 1)%nat by lia.
  rewrite seq_app, map_app. simpl. do 2 f_equal. lia.
Qed.

Lemma in_range (a b x : Z) : In x (range a b) <-> a <= x < b.
Proof.
  unfold range. rewrite in_map_iff. split.
  - intros (i & <- & Hi). apply in_seq in Hi. lia.
  - intros H. exists (Z.to_nat (x - a)). split; [lia|]. apply in_seq. lia.
Qed.

Lemma length_range (a b : Z) : length (range a b) = Z.to_nat (b - a).
Proof. unfold range. rewrite length_map, length_seq. reflexivity. Qed.

Lemma range_sorted (a b : Z) : StronglySorted Z.lt (range a b).
Proof.
  remember (Z.to_nat (b - a)) as n eqn:E.
  revert a E; induction n as [|n IH]; intros a E.
  - rewrite range_nil by lia. constructor.
  - rewrite range_cons by lia. constructor.
    + apply IH. lia.
    + apply Forall_forall. intros x Hx. apply in_range in Hx. lia.
Qed.

(** A loop whose every inner generator returns yields their values in
    sequence. *)
Lemma for_yield_some {A B : Type} (f : A -> option (list B)) (g : A -> list B)
      (l : list A) :
  (forall x, In x l -> f x = Some (g x)) ->
  for_yield f l = Some (flat_map g l).
Proof.
  induction l as [|x l IH]; intros H; simpl; [reflexivity|].
  rewrite (H x) by (left; reflexivity).
  rewrite IH by (intros y Hy; apply H; right; exact Hy).
  reflexivity.
Qed.

(** With [1 <= sides] a recursion depth of [sides] is enough, and the
    generator yields the sequence [dice]. *)
Lemma die_generator_dice (fuel : nat) :
  forall min_value max_value sides,
    1 <= sides -> (Z.to_nat sides <= fuel)%nat ->
    die_generator fuel min_value max_value sides
    = Some (dice (Z.to_nat (sides - 1)) min_value max_value).
Proof.
  induction fuel as [|fuel IH]; intros lo hi sides Hs Hf; [lia|].
  simpl. destruct (Z.eqb_spec sides 1) as [->|Hne].
  - simpl. apply for_yield_some. reflexivity.
  - replace (Z.to_nat (sides - 1)) with (S (Z.to_nat (sides - 1 - 1))) by lia.
    simpl. apply for_yield_some. intros v _.
    rewrite IH by lia. reflexivity.
Qed.

Lemma for_yield_mono {A B : Type} (f f' : A -> option (list B)) (l : list A) :
  (forall x ys, f x = Some ys -> f' x = Some ys) ->
  forall zs, for_yield f l = Some zs -> for_yield f' l = Some zs.
Proof.
  intros Hf. induction l as [|x l IH]; intros zs H; simpl in *; [exact H|].
  destruct (f x) as [ys|] eqn:Ex; [|discriminate].
  destruct (for_yield f l) as [ws|] eqn:El; [|discriminate].
  rewrite (Hf _ _ Ex), (IH _ eq_refl). exact H.
Qed.

(** More recursion depth does not change what the generator yields. *)
Lemma die_generator_fuel_mono (fuel : nat) :
  forall fuel' min_value max_value sides ds,
    die_generator fuel min_value max_value sides = Some ds ->
    (fuel <= fuel')%nat ->
    die_generator fuel' min_value max_value sides = Some ds.
Proof.
  induction fuel as [|fuel IH]; intros fuel' lo hi sides ds H Hle;
    [discriminate|].
  destruct fuel' as [|fuel']; [lia|].
  simpl in *. revert H. apply for_yield_mono.
  intros v ys. destruct (sides =? 1); [trivial|].
  destruct (die_generator fuel 0 v (sides - 1)) eqn:E1; [|discriminate].
  rewrite (IH fuel' _ _ _ _ E1) by lia. trivial.
Qed.

(** ** Which tuples are generated *)

Lemma in_dice_O (lo hi : Z) (d : die) :
  In d (dice 0 lo hi) <-> exists v, d = [v] /\ lo <= v <= hi.
Proof.
  simpl. rewrite in_flat_map. split.
  - intros (v & Hv & [<-|[]]). apply in_range in Hv. exists v. split; [reflexivity|lia].
  - intros (v & -> & Hv). exists v. split; [apply in_range; lia|left; reflexivity].
Qed.

Lemma in_dice_S (n : nat) (lo hi : Z) (d : die) :
  In d (dice (S n) lo hi)
  <-> exists v rest, d = v :: rest /\ lo <= v <= hi /\ In rest (dice n 0 v).
Proof.
  simpl. rewrite in_flat_map. split.
  - intros (v & Hv & Hd). apply in_range in Hv. apply in_map_iff in Hd.
    destruct Hd as (rest & <- & Hr). exists v, rest. repeat split; try lia; exact Hr.
  - intros (v & rest & -> & Hv & Hr). exists v. split; [apply in_range; lia|].
    apply in_map_iff. exists rest. split; [reflexivity|exact Hr].
Qed.

(** The first side is drawn from [[min_value, max_value]]. *)
Lemma dice_first_side (n : nat) (lo hi : Z) (d : die) :
  In d (dice n lo hi) -> exists v rest, d = v :: rest /\ lo <= v <= hi.
Proof.
  destruct n.
  - intros H. apply in_dice_O in H. destruct H as (v & -> & Hv). eauto.
  - intros H. apply in_dice_S in H. destruct H as (v & rest & -> & Hv & _). eauto.
Qed.

(** Every generated tuple has [sides] faces, is non-increasing, and its
    faces after the first lie between [0] and the first. *)
Lemma dice_shape (n : nat) :
  forall lo hi d, In d (dice n lo hi) ->
    length d = S n /\ non_increasing d /\
    exists v rest, d = v :: rest /\ lo <= v <= hi /\ within 0 v rest.
Proof.
  induction n as [|n IH]; intros lo hi d H.
  - apply in_dice_O in H. destruct H as (v & -> & Hv).
    split; [reflexivity|]. split; [repeat constructor|].
    exists v, []. repeat split; try lia. constructor.
  - apply in_dice_S in H. destruct H as (v & rest & -> & Hv & Hr).
    destruct (IH _ _ _ Hr) as (Hlen & Hs & w & rest' & -> & Hw & Hin).
    split; [simpl in *; lia|]. split.
    + constructor; [exact Hs|]. constructor. lia.
    + exists v, (w :: rest'). repeat split; try lia.
      constructor; [lia|].
      eapply Forall_impl; [|exact Hin]. simpl. intros; lia.
Qed.

Lemma non_increasing_bound (v : Z) (rest : die) :
  non_increasing (v :: rest) -> Forall (fun x => x <= v) rest.
Proof.
  intros H. apply Sorted_StronglySorted in H.
  - apply StronglySorted_inv in H. destruct H as [_ H].
    eapply Forall_impl; [|exact H]. simpl. intros; lia.
  - intros x y z. lia.
Qed.

(** With [min_value = 0] no tuple of the range is missed. *)
Lemma dice_complete (n : nat) :
  forall hi d, length d = S n -> non_increasing d -> within 0 hi d ->
    In d (dice n 0 hi).
Proof.
  induction n as [|n IH]; intros hi d Hlen Hs Hw.
  - destruct d as [|v [|? ?]]; try discriminate.
    apply in_dice_O. exists v. split; [reflexivity|].
    apply Forall_inv in Hw. exact Hw.
  - destruct d as [|v rest]; [discriminate|].
    apply in_dice_S. exists v, rest. split; [reflexivity|].
    split; [apply Forall_inv in Hw; exact Hw|].
    apply IH.
    + simpl in Hlen. lia.
    + apply Sorted_inv in Hs. apply Hs.
    + pose proof (non_increasing_bound _ _ Hs) as Hb.
      apply Forall_inv_tail in Hw. unfold within.
      rewrite Forall_forall in *. intros x Hx.
      specialize (Hb x Hx). specialize (Hw x Hx). simpl in *. lia.
Qed.

(** ** Order of the sequence *)

Lemma lex_lt_irrefl (d : die) : ~ lex_lt d d.
Proof. induction d as [|x d IH]; simpl; [tauto|]. intros [H|[_ H]]; [lia|tauto]. Qed.

Lemma lex_lt_asym (d : die) : forall e, lex_lt d e -> ~ lex_lt e d.
Proof.
  induction d as [|x d IH]; intros [|y e]; simpl; try tauto.
  intros [H|[-> H]] [H'|[E H']]; try lia. exact (IH _ H H').
Qed.

Lemma sorted_app {A : Type} (R : A -> A -> Prop) (l1 l2 : list A) :
  StronglySorted R l1 -> StronglySorted R l2 ->
  (forall x y, In x l1 -> In y l2 -> R x y) ->
  StronglySorted R (l1 ++ l2).
Proof.
  intros H1 H2 H. induction H1 as [|a l1 H1 IH Ha]; simpl; [exact H2|].
  constructor.
  - apply IH. intros x y Hx Hy. apply H; [right; exact Hx|exact Hy].
  - apply Forall_app. split; [exact Ha|].
    apply Forall_forall. intros y Hy. apply H; [left; reflexivity|exact Hy].
Qed.

Lemma sorted_cons_side (v : Z) (l : list die) :
  StronglySorted lex_lt l ->
  StronglySorted lex_lt (map (fun die => v :: die) l).
Proof.
  induction 1 as [|d l Hl IH Hd]; simpl; constructor; [exact IH|].
  rewrite Forall_forall in *. intros e He. apply in_map_iff in He.
  destruct He as (e' & <- & He'). simpl. right. split; [reflexivity|].
  apply Hd, He'.
Qed.

(** Blocks of tuples led by increasing first sides follow each other in
    tuple order. *)
Lemma flat_map_sorted (g : Z -> list die) (l : list Z) :
  StronglySorted Z.lt l ->
  (forall v, In v l -> StronglySorted lex_lt (g v)) ->
  (forall v d, In v l -> In d (g v) -> exists rest, d = v :: rest) ->
  StronglySorted lex_lt (flat_map g l).
Proof.
  induction 1 as [|v l Hl IH Hv]; intros Hs Hh; simpl; [constructor|].
  apply sorted_app.
  - apply Hs. left; reflexivity.
  - apply IH; intros; [apply Hs|apply Hh]; try (right; assumption); assumption.
  - intros x y Hx Hy. apply in_flat_map in Hy. destruct Hy as (w & Hw & Hy).
    destruct (Hh v x (or_introl eq_refl) Hx) as (rx & ->).
    destruct (Hh w y (or_intror Hw) Hy) as (ry & ->).
    rewrite Forall_forall in Hv. simpl. left. apply Hv, Hw.
Qed.

Lemma dice_ascending (n : nat) :
  forall lo hi, ascending_order (dice n lo hi).
Proof.
  unfold ascending_order.
  induction n as [|n IH]; intros lo hi; simpl; apply flat_map_sorted.
  - apply range_sorted.
  - intros v _. repeat constructor.
  - intros v d _ [<-|[]]. eauto.
  - apply range_sorted.
  - intros v _. apply sorted_cons_side, IH.
  - intros v d _ Hd. apply in_map_iff in Hd. destruct Hd as (r & <- & _). eauto.
Qed.

Lemma sorted_nth {A : Type} (R : A -> A -> Prop) (l : list A) :
  StronglySorted R l ->
  forall i j a b, (i < j)%nat ->
    nth_error l i = Some a -> nth_error l j = Some b -> R a b.
Proof.
  induction 1 as [|x l Hl IH Hx]; intros i j a b Hij Hi Hj.
  - destruct i; discriminate.
  - destruct j as [|j]; [lia|]. simpl in Hj.
    destruct i as [|i]; simpl in Hi.
    + injection Hi as <-. rewrite Forall_forall in Hx.
      apply Hx. eapply nth_error_In, Hj.
    + apply (IH i j); [lia|assumption|assumption].
Qed.

Lemma ascending_NoDup (ds : list die) : ascending_order ds -> NoDup ds.
Proof.
  induction 1 as [|d ds Hs IH Hd]; constructor; [|exact IH].
  intros Hin. rewrite Forall_forall in Hd.
  exact (lex_lt_irrefl d (Hd d Hin)).
Qed.

(** In an ascending sequence the smaller of two tuples comes first. *)
Lemma ascending_yielded_before (ds : list die) (d e : die) :
  ascending_order ds -> In d ds -> In e ds -> lex_lt d e ->
  yielded_before ds d e.
Proof.
  intros Hs Hd He Hlt.
  apply In_nth_error in Hd, He. destruct Hd as [i Hi], He as [j Hj].
  exists i, j. repeat split; try assumption.
  destruct (Nat.lt_trichotomy i j) as [H|[H|H]]; [exact H|subst j|].
  - rewrite Hi in Hj. injection Hj as <-. destruct (lex_lt_irrefl _ Hlt).
  - pose proof (sorted_nth _ _ Hs j i e d H Hj Hi) as Hlt'.
    destruct (lex_lt_asym _ _ Hlt Hlt').
Qed.

(** ** Number of generated tuples *)

Lemma binom_small (n : nat) : forall k, (n < k)%nat -> binom n k = O.
Proof.
  induction n as [|n IH]; intros [|k] H; simpl; try lia.
  rewrite !IH by lia. reflexivity.
Qed.

Lemma binom_diag (n : nat) : binom n n = 1%nat.
Proof.
  induction n as [|n IH]; simpl; [reflexivity|].
  rewrite IH, binom_small by lia. reflexivity.
Qed.

Lemma binom_one (n : nat) : binom n 1 = n.
Proof. induction n as [|n IH]; simpl; [reflexivity|]. rewrite IH. destruct n; reflexivity. Qed.

(** [binom] is the quotient of factorials. *)
Lemma binom_fact (n : nat) :
  forall k, (binom (n + k) k * (fact n * fact k) = fact (n + k))%nat.
Proof.
  induction n as [|n IHn]; intros k.
  - simpl. rewrite binom_diag. lia.
  - induction k as [|k IHk].
    + rewrite Nat.add_0_r. simpl binom at 1. simpl (fact 0). lia.
    + replace (S n + S k)%nat with (S (n + S k)) by lia.
      change (binom (S (n + S k)) (S k))
        with (binom (n + S k) k + binom (n + S k) (S k))%nat.
      specialize (IHn (S k)).
      replace (n + S k)%nat with (S n + k)%nat in * by lia.
      change (fact (S (S n + k))) with (S (S n + k) * fact (S n + k))%nat.
      change (fact (S k)) with (S k * fact k)%nat in *.
      change (fact (S n)) with (S n * fact n)%nat in *.
      nia.
Qed.

Lemma length_singletons (l : list Z) :
  length (flat_map (fun v => [[v]]) l) = length l.
Proof. induction l as [|x l IH]; simpl; [reflexivity|]. rewrite IH. reflexivity. Qed.

(** Raising [max_value] by one adds the tuples led by the new value. *)
Lemma dice_S_snoc (n : nat) (lo hi : Z) :
  lo <= hi + 1 ->
  dice (S n) lo (hi + 1)
  = dice (S n) lo hi ++ map (fun die => (hi + 1) :: die) (dice n 0 (hi + 1)).
Proof.
  intros H. simpl. rewrite (range_snoc lo (hi + 1)) by lia.
  rewrite flat_map_app. simpl. rewrite app_nil_r. reflexivity.
Qed.

(** With [min_value = 0] the generator yields
    [C(max_value + sides, sides)] tuples. *)
Lemma dice_count (n : nat) :
  forall h, length (dice n 0 (Z.of_nat h)) = binom (h + S n) (S n).
Proof.
  induction n as [|n IH]; intros h.
  - simpl. rewrite length_singletons, length_range.
    replace (h + 1)%nat with (S h) by lia. rewrite binom_one. lia.
  - induction h as [|h IHh].
    + replace (dice (S n) 0 (Z.of_nat 0)) with (dice (S n) 0 (-1 + 1))
        by reflexivity.
      rewrite dice_S_snoc by lia.
      rewrite length_app, length_map.
      transitivity (0 + binom (0 + S n) (S n))%nat.
      * f_equal. exact (IH 0%nat).
      * rewrite !Nat.add_0_l, !binom_diag. reflexivity.
    + rewrite Nat2Z.inj_succ. unfold Z.succ. rewrite dice_S_snoc by lia.
      rewrite length_app, length_map, IHh.
      replace (Z.of_nat h + 1) with (Z.of_nat (S h)) by lia. rewrite IH.
      replace (S h + S (S n))%nat with (S (h + S (S n))) by lia.
      change (binom (S (h + S (S n))) (S (S n)))
        with (binom (h + S (S n)) (S n) + binom (h + S (S n)) (S (S n)))%nat.
      replace (S h + S n)%nat with (h + S (S n))%nat by lia. lia.
Qed.

(** What the generator does for [min_value = 0]: it returns, and yields
    every non-increasing tuple of [sides] faces within [[0, max_value]]
    once; there are [C(max_value + sides, sides)] of them. *)
Lemma die_generator_from_zero (max_value sides : Z) :
  0 <= max_value -> 1 <= sides ->
  exists ds,
    die_generator (Z.to_nat sides) 0 max_value sides = Some ds /\
    length ds = binom (Z.to_nat (max_value + sides)) (Z.to_nat sides) /\
    (forall d, In d ds <->
       length d = Z.to_nat sides /\ non_increasing d /\ within 0 max_value d) /\
    NoDup ds.
Proof.
  intros Hm Hs. exists (dice (Z.to_nat (sides - 1)) 0 max_value).
  split; [apply die_generator_dice; lia|].
  replace (Z.to_nat sides) with (S (Z.to_nat (sides - 1))) by lia.
  split; [|split].
  - rewrite <- (Z2Nat.id max_value) at 1 by lia. rewrite dice_count.
    f_equal. lia.
  - intros d. split.
    + intros H. destruct (dice_shape _ _ _ _ H) as (Hl & Hn & v & r & -> & Hv & Hr).
      repeat split; try assumption.
      constructor; [exact Hv|]. eapply Forall_impl; [|exact Hr].
      simpl. intros; lia.
    + intros (Hl & Hn & Hw). apply dice_complete; assumption.
  - apply ascending_NoDup, dice_ascending.
Qed.

(** C1.  The claim asks for [C(max_value - min_value + sides, sides)]
    tuples with every face in [[min_value, max_value]].  The recursive
    call of [die_generator] passes [min_value=0], so from
    [min_value = 1, max_value = 2, sides = 2] the faces after the first
    start at [0]: five tuples are yielded where [C(3, 2) = 3] lie in the
    range, and [(1, 0)] and [(2, 0)] have a face below [min_value]. *)
Theorem die_generator_below_min_value :
  die_generator 2 1 2 2 = Some [[1; 0]; [1; 1]; [2; 0]; [2; 1]; [2; 2]] /\
  binom (Z.to_nat (2 - 1 + 2)) (Z.to_nat 2) = 3%nat /\
  ~ within 1 2 [1; 0] /\ ~ within 1 2 [2; 0].
Proof.
  split; [reflexivity|]. split; [reflexivity|].
  split; intros H; apply Forall_inv_tail, Forall_inv in H; lia.
Qed.

(** C2, as stated, fails on the scenario [min_value = 0, max_value = 1,
    sides = 2]: the generator yields [(0,0), (1,0), (1,1)], smallest
    first face first, which is not a descending sequence. *)
Lemma die_generator_not_descending :
  die_generator 2 0 1 2 = Some [[0; 0]; [1; 0]; [1; 1]] /\
  ~ descending_order [[0; 0]; [1; 0]; [1; 1]].
Proof.
  split; [reflexivity|]. intros H.
  apply StronglySorted_inv in H. destruct H as [_ H].
  apply Forall_inv in H. simpl in H. lia.
Qed.

(** C2, amended.  For every configuration with [sides >= 1] the
    generator returns and its sequence is in ascending-value-first,
    depth-first order: a die whose first face is smaller is yielded
    before any die whose first face is greater, and recursively so for
    the remaining faces, that is, the sequence is strictly ascending in
    tuple order. *)
Theorem die_generator_ascending (min_value max_value sides : Z) :
  1 <= sides ->
  exists ds,
    die_generator (Z.to_nat sides) min_value max_value sides = Some ds /\
    ascending_order ds /\
    (forall x d y e, In (x :: d) ds -> In (y :: e) ds -> x < y ->
       yielded_before ds (x :: d) (y :: e)) /\
    (forall d e, In d ds -> In e ds -> lex_lt d e -> yielded_before ds d e).
Proof.
  intros Hs. exists (dice (Z.to_nat (sides - 1)) min_value max_value).
  split; [apply die_generator_dice; lia|].
  pose proof (dice_ascending (Z.to_nat (sides - 1)) min_value max_value) as Ha.
  split; [exact Ha|]. split.
  - intros x d y e Hd He Hlt.
    apply ascending_yielded_before; try assumption. simpl. left. exact Hlt.
  - intros d e. apply ascending_yielded_before. exact Ha.
Qed.

(** The amended statement on the scenario [min_value = 0, max_value = 1,
    sides = 2]. *)
Lemma die_generator_ascending_witness :
  1 <= 2 /\
  exists ds,
    die_generator (Z.to_nat 2) 0 1 2 = Some ds /\
    ascending_order ds /\
    (forall x d y e, In (x :: d) ds -> In (y :: e) ds -> x < y ->
       yielded_before ds (x :: d) (y :: e)) /\
    (forall d e, In d ds -> In e ds -> lex_lt d e -> yielded_before ds d e).
Proof.
  split; [lia|]. apply (die_generator_ascending 0 1 2). lia.
Defined.

(** * Relation graph *)

(** ** The dictionary operations, read through [lookup] *)

Lemma lookup_app (g1 g2 : graph) (k : die) :
  lookup (g1 ++ g2) k
  = match lookup g1 k with Some v => Some v | None => lookup g2 k end.
Proof.
  induction g1 as [|[k' v] g1 IH]; simpl; [reflexivity|].
  destruct (die_eq_dec k' k); [reflexivity|exact IH].
Qed.

Lemma lookup_In (g : graph) (k : die) (v : entry) :
  lookup g k = Some v -> In (k, v) g.
Proof.
  induction g as [|[k' v'] g IH]; simpl; [discriminate|].
  destruct (die_eq_dec k' k) as [->|_].
  - intros [= ->]. left; reflexivity.
  - intros H. right. exact (IH H).
Qed.

Lemma lookup_None (g : graph) (k : die) :
  lookup g k = None <-> ~ In k (keys g).
Proof.
  induction g as [|[k' v'] g IH]; simpl; [tauto|].
  destruct (die_eq_dec k' k) as [->|Hne].
  - split; [discriminate|tauto].
  - rewrite IH. tauto.
Qed.

(** With unique keys an item of the dictionary is the one [lookup] finds. *)
Lemma In_lookup (g : graph) (k : die) (v : entry) :
  NoDup (keys g) -> In (k, v) g -> lookup g k = Some v.
Proof.
  induction g as [|[k' v'] g IH]; simpl; [tauto|].
  intros Hnd [[= -> ->]|Hin].
  - destruct (die_eq_dec k k); [reflexivity|congruence].
  - apply NoDup_cons_iff in Hnd. destruct Hnd as [Hk Hnd].
    destruct (die_eq_dec k' k) as [->|_]; [|exact (IH Hnd Hin)].
    destruct Hk. apply (in_map fst) in Hin. exact Hin.
Qed.

Lemma lookup_touch (g : graph) (k k' : die) :
  lookup (touch g k) k'
  = match lookup g k' with
    | Some v => Some v
    | None => if die_eq_dec k k' then Some ([], []) else None
    end.
Proof.
  unfold touch. destruct (lookup g k) eqn:E.
  - destruct (lookup g k') eqn:E'; [reflexivity|].
    destruct (die_eq_dec k k'); [congruence|reflexivity].
  - rewrite lookup_app. simpl. destruct (lookup g k'); reflexivity.
Qed.

Lemma lookup_update (g : graph) (k k' : die) (f : entry -> entry) :
  lookup (update g k f) k'
  = if die_eq_dec k k' then option_map f (lookup g k) else lookup g k'.
Proof.
  induction g as [|[k0 v0] g IH]; simpl.
  - destruct (die_eq_dec k k'); reflexivity.
  - destruct (die_eq_dec k0 k) as [->|Hne]; simpl.
    + destruct (die_eq_dec k k'); reflexivity.
    + destruct (die_eq_dec k0 k') as [->|Hne'].
      * destruct (die_eq_dec k k'); [congruence|reflexivity].
      * exact IH.
Qed.

Lemma keys_update (g : graph) (k : die) (f : entry -> entry) :
  keys (update g k f) = keys g.
Proof.
  induction g as [|[k0 v0] g IH]; simpl; [reflexivity|].
  destruct (die_eq_dec k0 k); simpl; [reflexivity|]. f_equal. exact IH.
Qed.

Lemma keys_touch_NoDup (g : graph) (k : die) :
  NoDup (keys g) -> NoDup (keys (touch g k)).
Proof.
  intros H. unfold touch. destruct (lookup g k) eqn:E; [exact H|].
  apply lookup_None in E. unfold keys in *. rewrite map_app. simpl.
  apply NoDup_app; [exact H|repeat constructor; simpl; tauto|].
  intros a Ha [<-|[]]. exact (E Ha).
Qed.

Lemma lookup_append_win (g : graph) (this oponent k : die) :
  lookup (append_win g this oponent) k
  = if die_eq_dec this k
    then Some (win_list g this ++ [oponent], lose_list g this)
    else lookup g k.
Proof.
  unfold append_win. rewrite lookup_update, !lookup_touch.
  unfold win_list, lose_list.
  destruct (die_eq_dec this k) as [->|Hne].
  - destruct (lookup g k); [reflexivity|].
    destruct (die_eq_dec k k); [reflexivity|congruence].
  - destruct (lookup g k); [reflexivity|].
    destruct (die_eq_dec this k); [congruence|reflexivity].
Qed.

Lemma lookup_append_lose (g : graph) (oponent this k : die) :
  lookup (append_lose g oponent this) k
  = if die_eq_dec oponent k
    then Some (win_list g oponent, lose_list g oponent ++ [this])
    else lookup g k.
Proof.
  unfold append_lose. rewrite lookup_update, !lookup_touch.
  unfold win_list, lose_list.
  destruct (die_eq_dec oponent k) as [->|Hne].
  - destruct (lookup g k); [reflexivity|].
    destruct (die_eq_dec k k); [reflexivity|congruence].
  - destruct (lookup g k); [reflexivity|].
    destruct (die_eq_dec oponent k); [congruence|reflexivity].
Qed.

Lemma win_list_append_win (g : graph) (this oponent k : die) :
  win_list (append_win g this oponent) k
  = if die_eq_dec this k then win_list g this ++ [oponent] else win_list g k.
Proof.
  unfold win_list at 1. rewrite lookup_append_win.
  destruct (die_eq_dec this k); reflexivity.
Qed.

Lemma lose_list_append_win (g : graph) (this oponent k : die) :
  lose_list (append_win g this oponent) k = lose_list g k.
Proof.
  unfold lose_list at 1. rewrite lookup_append_win.
  destruct (die_eq_dec this k) as [->|]; reflexivity.
Qed.

Lemma win_list_append_lose (g : graph) (oponent this k : die) :
  win_list (append_lose g oponent this) k = win_list g k.
Proof.
  unfold win_list at 1. rewrite lookup_append_lose.
  destruct (die_eq_dec oponent k) as [->|]; reflexivity.
Qed.

Lemma lose_list_append_lose (g : graph) (oponent this k : die) :
  lose_list (append_lose g oponent this) k
  = if die_eq_dec oponent k then lose_list g oponent ++ [this] else lose_list g k.
Proof.
  unfold lose_list at 1. rewrite lookup_append_lose.
  destruct (die_eq_dec oponent k); reflexivity.
Qed.

Lemma keys_append_win_NoDup (g : graph) (this oponent : die) :
  NoDup (keys g) -> NoDup (keys (append_win g this oponent)).
Proof.
  intros H. unfold append_win. rewrite keys_update. apply keys_touch_NoDup, H.
Qed.

Lemma keys_append_lose_NoDup (g : graph) (oponent this : die) :
  NoDup (keys g) -> NoDup (keys (append_lose g oponent this)).
Proof.
  intros H. unfold append_lose. rewrite keys_update. apply keys_touch_NoDup, H.
Qed.

Lemma keys_compare_pair_NoDup (g : graph) (this oponent : die) :
  NoDup (keys g) -> NoDup (keys (compare_pair g this oponent)).
Proof.
  intros H. unfold compare_pair. destruct (is_best this oponent); [|exact H].
  apply keys_append_lose_NoDup, keys_append_win_NoDup, H.
Qed.

(** ** Construction *)

(** Two nested loops visit the cross product in order. *)
Lemma nested_loops {S A B : Type} (F : S -> A -> B -> S)
      (outer : list A) (inner : list B) :
  forall s,
    fold_left (fun s a => fold_left (fun s b => F s a b) inner s) outer s
    = fold_left (fun s p => F s (fst p) (snd p)) (list_prod outer inner) s.
Proof.
  induction outer as [|a outer IH]; intros s; simpl; [reflexivity|].
  rewrite fold_left_app, IH. f_equal.
  clear IH. revert s.
  induction inner as [|b inner IHi]; intros s; simpl; [reflexivity|].
  apply IHi.
Qed.

Lemma build_from_pairs (dice : list die) (g : graph) :
  build_from dice g = build_pairs (list_prod dice dice) g.
Proof. apply nested_loops. Qed.

Lemma build_pairs_snoc (done : list (die * die)) (p : die * die) (g : graph) :
  build_pairs (done ++ [p]) g = compare_pair (build_pairs done g) (fst p) (snd p).
Proof. unfold build_pairs. rewrite fold_left_app. reflexivity. Qed.

Lemma build_during (dice : list die) : during_build dice (build dice).
Proof.
  unfold build. rewrite build_from_pairs.
  apply after_pairs with (todo := []). rewrite app_nil_r. reflexivity.
Qed.

Lemma build_pairs_keys_NoDup (done : list (die * die)) :
  NoDup (keys (build_pairs done [])).
Proof.
  induction done as [|p done IH] using rev_ind; [constructor|].
  rewrite build_pairs_snoc. apply keys_compare_pair_NoDup, IH.
Qed.

Section OnePair.

Variables (g : graph) (done : list (die * die)) (this oponent : die).

Hypothesis decisive : is_best this oponent = true.

Lemma recorded_more (p : die * die) : recorded g done -> recorded g (done ++ [p]).
Proof.
  intros H A B HAB. destruct (H A B HAB) as [Hin Hb].
  split; [apply in_or_app; left; exact Hin|exact Hb].
Qed.

Lemma recorded_append_win :
  recorded g done ->
  recorded (append_win g this oponent) (done ++ [(this, oponent)]).
Proof.
  intros H A B. rewrite win_list_append_win, lose_list_append_win.
  destruct (die_eq_dec this A) as [<-|Hne].
  - intros [HB|HA].
    + apply in_app_or in HB. destruct HB as [HB|[<-|[]]].
      * apply (recorded_more _ H). left; exact HB.
      * split; [apply in_or_app; right; left; reflexivity|exact decisive].
    + apply (recorded_more _ H). right; exact HA.
  - intros HAB. apply (recorded_more _ H), HAB.
Qed.

Lemma recorded_append_lose :
  recorded g (done ++ [(this, oponent)]) ->
  recorded (append_lose g oponent this) (done ++ [(this, oponent)]).
Proof.
  intros H A B. rewrite win_list_append_lose, lose_list_append_lose.
  destruct (die_eq_dec oponent B) as [<-|Hne].
  - intros [HB|HA].
    + apply H. left; exact HB.
    + apply in_app_or in HA. destruct HA as [HA|[<-|[]]].
      * apply H. right; exact HA.
      * split; [apply in_or_app; right; left; reflexivity|exact decisive].
  - intros HAB. apply H, HAB.
Qed.

Lemma mirrored_appends :
  mirrored g ->
  mirrored (append_lose (append_win g this oponent) oponent this).
Proof.
  intros H A B.
  rewrite win_list_append_lose, lose_list_append_lose,
    win_list_append_win, !lose_list_append_win.
  specialize (H A B).
  destruct (die_eq_dec this A) as [<-|HA], (die_eq_dec oponent B) as [<-|HB];
    rewrite ?in_app_iff; simpl; intuition congruence.
Qed.

Hypothesis fresh : ~ In (this, oponent) done.

Lemma NoDup_snoc {A : Type} (l : list A) (x : A) :
  NoDup l -> ~ In x l -> NoDup (l ++ [x]).
Proof.
  intros Hl Hx. apply NoDup_app; [exact Hl|repeat constructor; simpl; tauto|].
  intros a Ha [<-|[]]. exact (Hx Ha).
Qed.

Lemma lists_NoDup_append_win :
  recorded g done -> lists_NoDup g ->
  lists_NoDup (append_win g this oponent).
Proof.
  intros Hr Hn k. rewrite win_list_append_win, lose_list_append_win.
  split; [|apply Hn].
  destruct (die_eq_dec this k) as [_|_]; [|apply Hn].
  apply NoDup_snoc; [apply Hn|].
  intros Hin. apply fresh. apply (Hr this oponent). left; exact Hin.
Qed.

Lemma lists_NoDup_appends :
  recorded g done -> lists_NoDup g ->
  lists_NoDup (append_lose (append_win g this oponent) oponent this).
Proof.
  intros Hr Hn k. pose proof (lists_NoDup_append_win Hr Hn) as Hw.
  rewrite win_list_append_lose, lose_list_append_lose.
  split; [apply Hw|].
  destruct (die_eq_dec oponent k) as [_|_]; [|apply Hw].
  apply NoDup_snoc; [apply Hw|].
  rewrite lose_list_append_win.
  intros Hin. apply fresh. apply (Hr this oponent). right; exact Hin.
Qed.

End OnePair.

Lemma recorded_build_pairs (done : list (die * die)) :
  recorded (build_pairs done []) done.
Proof.
  induction done as [|[this oponent] done IH] using rev_ind.
  - intros A B [[]|[]].
  - rewrite build_pairs_snoc. unfold compare_pair. simpl.
    destruct (is_best this oponent) eqn:E.
    + apply recorded_append_lose, recorded_append_win; assumption.
    + apply recorded_more, IH.
Qed.

Lemma mirrored_build_pairs (done : list (die * die)) :
  mirrored (build_pairs done []).
Proof.
  induction done as [|[this oponent] done IH] using rev_ind.
  - intros A B. simpl. tauto.
  - rewrite build_pairs_snoc. unfold compare_pair. simpl.
    destruct (is_best this oponent); [apply mirrored_appends|]; exact IH.
Qed.

Lemma lists_NoDup_build_pairs (done : list (die * die)) :
  NoDup done -> lists_NoDup (build_pairs done []).
Proof.
  induction done as [|[this oponent] done IH] using rev_ind; intros Hnd.
  - intros k. split; constructor.
  - rewrite build_pairs_snoc. unfold compare_pair. simpl.
    pose proof (NoDup_remove_2 _ _ _ Hnd) as Hfresh. rewrite app_nil_r in Hfresh.
    pose proof (NoDup_remove_1 _ _ _ Hnd) as Hd. rewrite app_nil_r in Hd.
    destruct (is_best this oponent) eqn:E; [|exact (IH Hd)].
    apply (lists_NoDup_appends _ done); try assumption.
    + apply recorded_build_pairs.
    + exact (IH Hd).
Qed.

(** The statements about lists reached by key speak of every item when
    keys are unique. *)
Lemma lists_NoDup_no_repeats (g : graph) :
  NoDup (keys g) -> lists_NoDup g -> no_repeats g.
Proof.
  intros Hk Hn k v Hin. apply (In_lookup _ _ _ Hk) in Hin.
  specialize (Hn k). unfold win_list, lose_list in Hn. rewrite Hin in Hn.
  exact Hn.
Qed.

Lemma NoDup_list_prod {A B : Type} (l : list A) (l' : list B) :
  NoDup l -> NoDup l' -> NoDup (list_prod l l').
Proof.
  intros Hl Hl'. induction Hl as [|x l Hx Hl IH]; simpl; [constructor|].
  apply NoDup_app.
  - clear -Hl'. induction Hl' as [|y l' Hy Hl' IH]; simpl; constructor; [|exact IH].
    intros Hin. apply in_map_iff in Hin. destruct Hin as (y' & [= ->] & Hy').
    exact (Hy Hy').
  - exact IH.
  - intros [a b] Ha Hb. apply in_map_iff in Ha. destruct Ha as (y & [= <- <-] & _).
    apply in_prod_iff in Hb. exact (Hx (proj1 Hb)).
Qed.

(** Every state met during construction records decisive pairs only. *)
Lemma during_build_recorded (dice : list die) (g : graph) :
  during_build dice g -> exists done, recorded g done.
Proof.
  intros [done todo _|done this oponent todo _ Hb].
  - exists done. apply recorded_build_pairs.
  - exists (done ++ [(this, oponent)]).
    apply recorded_append_win; [exact Hb|apply recorded_build_pairs].
Qed.

Lemma during_build_no_repeats (dice : list die) (g : graph) :
  NoDup dice -> during_build dice g -> no_repeats g.
Proof.
  intros Hd Hg. pose proof (NoDup_list_prod _ _ Hd Hd) as Hp.
  destruct Hg as [done todo E|done this oponent todo E Hb]; rewrite E in Hp.
  - apply NoDup_app_remove_r in Hp.
    apply lists_NoDup_no_repeats;
      [apply build_pairs_keys_NoDup|apply lists_NoDup_build_pairs, Hp].
  - pose proof (NoDup_remove_2 _ _ _ Hp) as Hfresh.
    apply NoDup_app_remove_r in Hp.
    apply lists_NoDup_no_repeats.
    + apply keys_append_win_NoDup, build_pairs_keys_NoDup.
    + apply (lists_NoDup_append_win _ done).
      * intros Hin. apply Hfresh, in_or_app. left; exact Hin.
      * apply recorded_build_pairs.
      * apply lists_NoDup_build_pairs, Hp.
Qed.

(** * Graph reducer *)

Lemma filter_nil_false {A : Type} (f : A -> bool) (l : list A) (x : A) :
  filter f l = [] -> In x l -> f x = false.
Proof.
  induction l as [|y l IH]; simpl; [tauto|].
  destruct (f y) eqn:E; [discriminate|].
  intros H [<-|Hin]; [exact E|exact (IH H Hin)].
Qed.

Lemma to_delete_nil (g : graph) : to_delete g = [] <-> all_mixed g.
Proof.
  unfold to_delete, all_mixed. split.
  - intros H k v Hin. apply map_eq_nil in H.
    pose proof (filter_nil_false _ _ _ H Hin) as E. simpl in E.
    apply orb_false_iff in E. destruct E as [E1 E2].
    destruct v as [[|? ?] [|? ?]]; simpl in *; try discriminate.
    split; discriminate.
  - intros H.
    induction g as [|[k v] g IH]; simpl; [reflexivity|].
    destruct (H k v (or_introl eq_refl)) as [Hw Hl].
    destruct v as [[|? ?] [|? ?]]; simpl in *; try congruence.
    apply IH. intros k' v' Hin. apply (H k' v'). right; exact Hin.
Qed.

Lemma to_delete_keys (g : graph) (k : die) :
  In k (to_delete g) -> In k (keys g).
Proof.
  unfold to_delete, keys. intros H. apply in_map_iff in H.
  destruct H as (kv & <- & Hin). apply filter_In in Hin.
  apply in_map, Hin.
Qed.

Lemma del_length_le (g : graph) (k : die) : (length (del g k) <= length g)%nat.
Proof.
  induction g as [|[k' v] g IH]; simpl; [lia|].
  destruct (die_eq_dec k' k); simpl; lia.
Qed.

Lemma del_length_lt (g : graph) (k : die) :
  In k (keys g) -> (length (del g k) < length g)%nat.
Proof.
  induction g as [|[k' v] g IH]; simpl; [tauto|].
  destruct (die_eq_dec k' k) as [->|Hne]; simpl; [lia|].
  intros [H|H]; [congruence|]. specialize (IH H). lia.
Qed.

Lemma fold_del_length_le (deleted : list die) :
  forall g, (length (fold_left del deleted g) <= length g)%nat.
Proof.
  induction deleted as [|d deleted IH]; intros g; simpl; [lia|].
  specialize (IH (del g d)). pose proof (del_length_le g d). lia.
Qed.

(** A pass that deletes anything leaves fewer dice. *)
Lemma pass_length_lt (g : graph) :
  to_delete g <> [] -> (length (pass g) < length g)%nat.
Proof.
  intros H. unfold pass. rewrite length_map.
  destruct (to_delete g) as [|d deleted] eqn:E; [congruence|].
  simpl. pose proof (fold_del_length_le deleted (del g d)).
  assert (In d (keys g)) by (apply to_delete_keys; rewrite E; left; reflexivity).
  pose proof (del_length_lt g d ltac:(assumption)). lia.
Qed.

(** The loop leaves at once when nothing is to be deleted. *)
Lemma clean_exit (fuel : nat) (g : graph) :
  to_delete g = [] -> clean (S fuel) g = Some g.
Proof. intros H. simpl. rewrite H. reflexivity. Qed.

Lemma clean_continue (fuel : nat) (g : graph) :
  to_delete g <> [] -> clean (S fuel) g = clean fuel (pass g).
Proof.
  intros H. simpl. destruct (to_delete g); [congruence|reflexivity].
Qed.

(** One more iteration than there are dice is always enough, and the
    graph returned holds nothing to delete. *)
Lemma clean_returns (fuel : nat) :
  forall g, (length g < fuel)%nat ->
    exists g', clean fuel g = Some g' /\ to_delete g' = [].
Proof.
  induction fuel as [|fuel IH]; intros g Hlen; [lia|].
  destruct (to_delete g) as [|d deleted] eqn:E.
  - exists g. split; [apply clean_exit, E|exact E].
  - assert (Hne : to_delete g <> []) by (rewrite E; discriminate).
    rewrite clean_continue by exact Hne.
    apply IH. pose proof (pass_length_lt g Hne). lia.
Qed.

(** Whatever the bound, a returned graph holds nothing to delete. *)
Lemma clean_fixed (fuel : nat) :
  forall g g', clean fuel g = Some g' -> to_delete g' = [].
Proof.
  induction fuel as [|fuel IH]; intros g g' H; [discriminate|].
  simpl in H. destruct (to_delete g) eqn:E; simpl in H.
  - injection H as <-. exact E.
  - exact (IH _ _ H).
Qed.

(** A property kept by every pass holds of the returned graph. *)
Lemma clean_preserves (P : graph -> Prop) :
  (forall g, P g -> P (pass g)) ->
  forall fuel g g', P g -> clean fuel g = Some g' -> P g'.
Proof.
  intros Hpass. induction fuel as [|fuel IH]; intros g g' HP H; [discriminate|].
  simpl in H. destruct (is_empty (to_delete g)).
  - injection H as <-. exact HP.
  - exact (IH _ _ (Hpass _ HP) H).
Qed.

(** ** What a pass does to the dictionary and to the lists *)

Lemma keys_del_incl (g : graph) (k x : die) :
  In x (keys (del g k)) -> In x (keys g).
Proof.
  induction g as [|[k' v] g IH]; simpl; [tauto|].
  destruct (die_eq_dec k' k); simpl; tauto.
Qed.

Lemma keys_del_NoDup (g : graph) (k : die) :
  NoDup (keys g) -> NoDup (keys (del g k)).
Proof.
  induction g as [|[k' v] g IH]; simpl; [trivial|].
  intros H. apply NoDup_cons_iff in H. destruct H as [Hk H].
  destruct (die_eq_dec k' k); [exact H|]. simpl. constructor.
  - intros Hin. apply Hk. eapply keys_del_incl, Hin.
  - exact (IH H).
Qed.

Lemma lookup_del (g : graph) (k k' : die) :
  NoDup (keys g) ->
  lookup (del g k) k' = if die_eq_dec k k' then None else lookup g k'.
Proof.
  induction g as [|[k0 v0] g IH]; simpl; intros Hnd.
  - destruct (die_eq_dec k k'); reflexivity.
  - apply NoDup_cons_iff in Hnd. destruct Hnd as [Hk Hnd].
    destruct (die_eq_dec k0 k) as [->|Hne].
    + destruct (die_eq_dec k k') as [<-|Hne']; [|reflexivity].
      apply lookup_None, Hk.
    + simpl. destruct (die_eq_dec k0 k') as [->|Hne'].
      * destruct (die_eq_dec k k'); [congruence|reflexivity].
      * exact (IH Hnd).
Qed.

Lemma fold_del_keys_NoDup (deleted : list die) :
  forall g, NoDup (keys g) -> NoDup (keys (fold_left del deleted g)).
Proof.
  induction deleted as [|d deleted IH]; intros g H; simpl; [exact H|].
  apply IH, keys_del_NoDup, H.
Qed.

Lemma lookup_fold_del (deleted : list die) :
  forall g k, NoDup (keys g) ->
    lookup (fold_left del deleted g) k
    = if in_dec die_eq_dec k deleted then None else lookup g k.
Proof.
  induction deleted as [|d deleted IH]; intros g k H; simpl; [reflexivity|].
  rewrite IH by (apply keys_del_NoDup, H). rewrite lookup_del by exact H.
  destruct (in_dec die_eq_dec k deleted) as [Hin|Hout];
    destruct (die_eq_dec d k); reflexivity.
Qed.

Lemma lookup_map_values (f : entry -> entry) (g : graph) (k : die) :
  lookup (map (fun kv => (fst kv, f (snd kv))) g) k = option_map f (lookup g k).
Proof.
  induction g as [|[k' v] g IH]; simpl; [reflexivity|].
  destruct (die_eq_dec k' k); [reflexivity|exact IH].
Qed.

Lemma keys_map_values (f : entry -> entry) (g : graph) :
  keys (map (fun kv => (fst kv, f (snd kv))) g) = keys g.
Proof. unfold keys. rewrite map_map. reflexivity. Qed.

Lemma lookup_pass (g : graph) (k : die) :
  NoDup (keys g) ->
  lookup (pass g) k
  = if in_dec die_eq_dec k (to_delete g) then None
    else option_map (prune (to_delete g)) (lookup g k).
Proof.
  intros H. unfold pass. rewrite lookup_map_values, lookup_fold_del by exact H.
  destruct (in_dec die_eq_dec k (to_delete g)); reflexivity.
Qed.

Lemma keys_pass_NoDup (g : graph) : NoDup (keys g) -> NoDup (keys (pass g)).
Proof.
  intros H. unfold pass. rewrite keys_map_values. apply fold_del_keys_NoDup, H.
Qed.

Lemma prune_lists (deleted : list die) :
  forall v,
    prune deleted v
    = (fold_left (fun l d => discard d l) deleted (fst v),
       fold_left (fun l d => discard d l) deleted (snd v)).
Proof.
  unfold prune. induction deleted as [|d deleted IH]; intros [w l]; simpl;
    [reflexivity|].
  rewrite IH. reflexivity.
Qed.

Lemma In_remove_first (d x : die) (l : list die) :
  x <> d -> (In x (remove_first d l) <-> In x l).
Proof.
  intros Hne. induction l as [|y l IH]; simpl; [tauto|].
  destruct (die_eq_dec y d) as [->|Hy]; simpl; [|tauto].
  split; [tauto|]. intros [H|H]; [congruence|exact H].
Qed.

Lemma In_discard (d x : die) (l : list die) :
  x <> d -> (In x (discard d l) <-> In x l).
Proof.
  intros Hne. unfold discard. destruct (in_dec die_eq_dec d l); [|tauto].
  apply In_remove_first, Hne.
Qed.

(** A die that is not deleted stays in, or out of, every list. *)
Lemma In_fold_discard (deleted : list die) (x : die) :
  ~ In x deleted ->
  forall l, In x (fold_left (fun l d => discard d l) deleted l) <-> In x l.
Proof.
  induction deleted as [|d deleted IH]; intros Hx l; simpl; [tauto|].
  rewrite IH by (intros H; apply Hx; right; exact H).
  apply In_discard. intros ->. apply Hx. left; reflexivity.
Qed.

Lemma symmetric_pass (g : graph) :
  NoDup (keys g) /\ symmetric g -> NoDup (keys (pass g)) /\ symmetric (pass g).
Proof.
  intros [Hk Hs]. split; [apply keys_pass_NoDup, Hk|].
  intros A B. unfold in_graph, win_list, lose_list.
  rewrite !lookup_pass by exact Hk.
  destruct (in_dec die_eq_dec A (to_delete g)) as [|HA]; [congruence|].
  destruct (in_dec die_eq_dec B (to_delete g)) as [|HB]; [congruence|].
  destruct (lookup g A) as [vA|] eqn:EA; [|simpl; congruence].
  destruct (lookup g B) as [vB|] eqn:EB; [|simpl; congruence].
  intros _ _. simpl. rewrite !prune_lists. simpl.
  rewrite !In_fold_discard by assumption.
  specialize (Hs A B). unfold in_graph, win_list, lose_list in Hs.
  rewrite EA, EB in Hs. apply Hs; discriminate.
Qed.

Lemma build_keys_NoDup (dice : list die) : NoDup (keys (build dice)).
Proof. unfold build. rewrite build_from_pairs. apply build_pairs_keys_NoDup. Qed.

Lemma build_symmetric (dice : list die) : symmetric (build dice).
Proof.
  intros A B _ _. unfold build. rewrite build_from_pairs.
  apply mirrored_build_pairs.
Qed.

(** The reducer keeps the relation symmetric on a dictionary. *)
Lemma clean_symmetric (fuel : nat) (g g' : graph) :
  NoDup (keys g) -> symmetric g -> clean fuel g = Some g' -> symmetric g'.
Proof.
  intros Hk Hs Hc.
  apply (clean_preserves (fun g => NoDup (keys g) /\ symmetric g)
           symmetric_pass _ _ _ (conj Hk Hs) Hc).
Qed.

(** More iterations allowed do not change the graph returned. *)
Lemma clean_fuel_mono (fuel : nat) :
  forall fuel' g g', clean fuel g = Some g' -> (fuel <= fuel')%nat ->
    clean fuel' g = Some g'.
Proof.
  induction fuel as [|fuel IH]; intros fuel' g g' H Hle; [discriminate|].
  destruct fuel' as [|fuel']; [lia|].
  simpl in *. destruct (is_empty (to_delete g)); [exact H|].
  apply IH; [exact H|lia].
Qed.

(** * The claims *)

(** C3.  [is_best A B] holds exactly when the number of face pairs
    where [A]'s face is strictly greater exceeds [m*n] minus the tied
    pairs minus that same number; this remainder is the number of pairs
    that [B] wins, so [A] wins strictly more of the non-tied pairs than
    [B] does.  [is_best] reads its two arguments only and changes
    nothing: it is a function of them. *)
Theorem is_best_iff_more_wins (A B : die) :
  (is_best A B = true <->
   wins A B > Z.of_nat (length A) * Z.of_nat (length B) - ties A B - wins A B) /\
  Z.of_nat (length A) * Z.of_nat (length B) - ties A B - wins A B = wins B A /\
  (is_best A B = true <-> wins A B > wins B A).
Proof.
  pose proof (wins_ties_losses A B) as Hsum.
  pose proof (losses_swap A B) as Hswap.
  pose proof (is_best_wins_losses A B) as Hbest.
  repeat split; intros; try lia; try (apply Hbest; lia).
  - apply Hbest in H. lia.
  - apply Hbest in H. lia.
Qed.

(** C4.  The comparator is anti-symmetric: for dice [A <> B],
    [is_best A B] and [is_best B A] are never both true. *)
Theorem is_best_antisymmetric (A B : die) :
  A <> B -> ~ (is_best A B = true /\ is_best B A = true).
Proof.
  intros _ [HAB HBA]. rewrite (is_best_one_way _ _ HAB) in HBA. discriminate.
Qed.

(** Anti-symmetry on the dice [(4,4,0,0)] and [(3,3,3,1)]. *)
Lemma is_best_antisymmetric_witness :
  [4; 4; 0; 0] <> [3; 3; 3; 1] /\
  ~ (is_best [4; 4; 0; 0] [3; 3; 3; 1] = true /\
     is_best [3; 3; 3; 1] [4; 4; 0; 0] = true).
Proof.
  split; [discriminate|].
  apply (is_best_antisymmetric [4; 4; 0; 0] [3; 3; 3; 1]). discriminate.
Defined.

(** C5.  The comparator is irreflexive: [is_best A A] is false for
    every die, and at no point of the construction of the graph is a die
    in its own win list (or in its own lose list). *)
Theorem is_best_irreflexive (A : die) :
  is_best A A = false /\
  forall dice g, during_build dice g ->
    ~ In A (win_list g A) /\ ~ In A (lose_list g A).
Proof.
  split; [apply is_best_self|].
  intros dice g Hg. destruct (during_build_recorded _ _ Hg) as [done Hr].
  split; intros Hin.
  - destruct (Hr A A (or_introl Hin)) as [_ Hb].
    rewrite is_best_self in Hb. discriminate.
  - destruct (Hr A A (or_intror Hin)) as [_ Hb].
    rewrite is_best_self in Hb. discriminate.
Qed.

(** C6.  [clean] returns, and every die left in the graph it returns
    has a non-empty win list and a non-empty lose list. *)
Theorem clean_all_mixed (g : graph) :
  (exists g', clean (S (length g)) g = Some g' /\ all_mixed g') /\
  (forall fuel g', clean fuel g = Some g' -> all_mixed g').
Proof.
  split.
  - destruct (clean_returns (S (length g)) g (Nat.lt_succ_diag_r _))
      as (g' & Hc & Hd).
    exists g'. split; [exact Hc|apply to_delete_nil, Hd].
  - intros fuel g' H. apply to_delete_nil. exact (clean_fixed _ _ _ H).
Qed.

(** C7.  The reducer is idempotent: on the graph that [clean] returns,
    a second run finds nothing to delete and returns the same graph. *)
Theorem clean_idempotent (g : graph) :
  exists g',
    clean (S (length g)) g = Some g' /\
    to_delete g' = [] /\
    forall fuel, clean (S fuel) g' = Some g'.
Proof.
  destruct (clean_returns (S (length g)) g (Nat.lt_succ_diag_r _))
    as (g' & Hc & Hd).
  exists g'. split; [exact Hc|]. split; [exact Hd|].
  intros fuel. apply clean_exit, Hd.
Qed.

(** C8.  [clean] terminates on every graph: a pass that deletes
    anything leaves strictly fewer dice, the loop leaves as soon as a
    pass finds no die with an empty win list or an empty lose list, and
    so at most one iteration per die and a last one are run. *)
Theorem clean_terminates (g : graph) :
  (to_delete g <> [] ->
   (length (pass g) < length g)%nat /\
   forall fuel, clean (S fuel) g = clean fuel (pass g)) /\
  (to_delete g = [] -> forall fuel, clean (S fuel) g = Some g) /\
  exists g',
    clean (S (length g)) g = Some g' /\
    forall fuel, (S (length g) <= fuel)%nat -> clean fuel g = Some g'.
Proof.
  split; [|split].
  - intros H. split; [apply pass_length_lt, H|].
    intros fuel. apply clean_continue, H.
  - intros H fuel. apply clean_exit, H.
  - destruct (clean_returns (S (length g)) g (Nat.lt_succ_diag_r _))
      as (g' & Hc & _).
    exists g'. split; [exact Hc|].
    intros fuel Hle. exact (clean_fuel_mono _ _ _ _ Hc Hle).
Qed.

(** C9.  The graph relation is symmetric: when the construction over
    any sequence of dice completes, and again when [clean] has returned,
    for all dice [A] and [B] both in the graph, [B] is in the win list
    of [A] exactly when [A] is in the lose list of [B]. *)
Theorem graph_symmetric (dice : list die) :
  symmetric (build dice) /\
  exists g',
    clean (S (length (build dice))) (build dice) = Some g' /\ symmetric g'.
Proof.
  split; [apply build_symmetric|].
  destruct (clean_returns (S (length (build dice))) (build dice)
              (Nat.lt_succ_diag_r _)) as (g' & Hc & _).
  exists g'. split; [exact Hc|].
  exact (clean_symmetric _ _ _ (build_keys_NoDup dice) (build_symmetric dice) Hc).
Qed.

(** C10.  For every configuration with [sides >= 1] the generator
    returns a sequence whose cross product holds each ordered pair once,
    and no win list and no lose list of the graph has a repeated entry
    at any point during the construction or after it. *)
Theorem build_no_repeats (min_value max_value sides : Z) :
  1 <= sides ->
  exists dice,
    die_generator (Z.to_nat sides) min_value max_value sides = Some dice /\
    NoDup (list_prod dice dice) /\
    (forall g, during_build dice g -> no_repeats g) /\
    no_repeats (build dice).
Proof.
  intros Hs. exists (dice (Z.to_nat (sides - 1)) min_value max_value).
  pose proof (ascending_NoDup _
                (dice_ascending (Z.to_nat (sides - 1)) min_value max_value))
    as Hd.
  split; [apply die_generator_dice; lia|].
  split; [apply NoDup_list_prod; exact Hd|].
  split.
  - intros g. apply during_build_no_repeats, Hd.
  - apply (during_build_no_repeats _ _ Hd), build_during.
Qed.

(** The statement on the default configuration, the one [main] runs. *)
Lemma build_no_repeats_witness :
  1 <= SIDES /\
  exists dice,
    die_generator (Z.to_nat SIDES) MIN_VALUE MAX_VALUE SIDES = Some dice /\
    NoDup (list_prod dice dice) /\
    (forall g, during_build dice g -> no_repeats g) /\
    no_repeats (build dice).
Proof.
  split; [unfold SIDES; lia|].
  apply (build_no_repeats MIN_VALUE MAX_VALUE SIDES). unfold SIDES; lia.
Defined.

(** * The program on concrete configurations *)

(** With [min_value = 0, max_value = 1, sides = 2] the relation is a
    total order and the reducer empties the graph. *)
Example transitive_scenario :
  exists ds,
    die_generator 2 0 1 2 = Some ds /\
    build ds
    = [([1; 0], ([[0; 0]], [[1; 1]]));
       ([0; 0], ([], [[1; 0]; [1; 1]]));
       ([1; 1], ([[0; 0]; [1; 0]], []))] /\
    clean 4 (build ds) = Some [].
Proof. eexists. repeat split; reflexivity. Qed.

(** On the default configuration [main] reaches its printing loop with a
    graph of 38 dice, each of which both wins and loses. *)
Example main_graph_returns :
  exists g,
    main_graph 71 = Some g /\ all_mixed g /\ symmetric g /\ length g = 38%nat.
Proof.
  unfold main_graph.
  rewrite die_generator_dice by (unfold SIDES; lia).
  set (ds := dice (Z.to_nat (SIDES - 1)) MIN_VALUE MAX_VALUE).
  assert (Hlen : option_map (@length _) (clean 71 (build ds)) = Some 38%nat)
    by (vm_compute; reflexivity).
  destruct (clean 71 (build ds)) as [g|] eqn:E; [|discriminate].
  exists g. split; [reflexivity|]. split; [|split].
  - apply to_delete_nil. exact (clean_fixed _ _ _ E).
  - exact (clean_symmetric _ _ _ (build_keys_NoDup ds) (build_symmetric ds) E).
  - simpl in Hlen. injection Hlen as Hlen. exact Hlen.
Qed.

(** * Further properties of the generator *)

Lemma for_yield_none {A B : Type} (f : A -> option (list B)) (l : list A) (x : A) :
  In x l -> f x = None -> for_yield f l = None.
Proof.
  induction l as [|y l IH]; simpl; [tauto|].
  intros [->|Hin] Hx.
  - rewrite Hx. reflexivity.
  - rewrite (IH Hin Hx). destruct (f y); reflexivity.
Qed.

Lemma flat_map_nil {A B : Type} (l : list A) :
  flat_map (fun _ : A => @nil B) l = [].
Proof. induction l as [|x l IH]; simpl; [reflexivity|exact IH]. Qed.

Lemma range_app (a b c : Z) :
  a <= b <= c -> range a c = range a b ++ range b c.
Proof.
  intros H. remember (Z.to_nat (b - a)) as n eqn:E.
  revert a H E. induction n as [|n IH]; intros a H E.
  - assert (a = b) by lia. subst. rewrite (range_nil b b) by lia. reflexivity.
  - rewrite (range_cons a c), (range_cons a b) by lia. simpl. f_equal.
    apply IH; lia.
Qed.

(** The tuples led by the values below [min_value] come first in the
    sequence from [0]. *)
Lemma dice_split (n : nat) (lo hi : Z) :
  0 <= lo <= hi + 1 ->
  dice n 0 hi = dice n 0 (lo - 1) ++ dice n lo hi.
Proof.
  intros H. destruct n; simpl;
    rewrite (range_app 0 lo (hi + 1)) by lia;
    rewrite flat_map_app; replace (lo - 1 + 1) with lo by lia; reflexivity.
Qed.

Lemma dice_count_Z (n : nat) (hi : Z) :
  -1 <= hi ->
  length (dice n 0 hi) = binom (Z.to_nat (hi + 1 + Z.of_nat n)) (S n).
Proof.
  intros H. destruct (Z.eq_dec hi (-1)) as [->|Hne].
  - replace (Z.to_nat (-1 + 1 + Z.of_nat n)) with n by lia.
    rewrite binom_small by lia. destruct n; reflexivity.
  - rewrite <- (Z2Nat.id hi) at 1 by lia. rewrite dice_count. f_equal. lia.
Qed.

Lemma in_dice_iff (n : nat) (lo hi : Z) (d : die) :
  In d (dice n lo hi) <->
  length d = S n /\ non_increasing d /\
  exists v rest, d = v :: rest /\ lo <= v <= hi /\ within 0 v rest.
Proof.
  split; [apply dice_shape|].
  intros (Hlen & Hs & v & rest & -> & Hv & Hw).
  destruct n as [|n].
  - destruct rest; [|discriminate]. apply in_dice_O. eauto.
  - apply in_dice_S. exists v, rest. split; [reflexivity|]. split; [exact Hv|].
    apply dice_complete.
    + simpl in Hlen. lia.
    + apply Sorted_inv in Hs. apply Hs.
    + exact Hw.
Qed.

(** X1.  When [max_value < min_value] the loop over the first side has
    nothing to visit: the generator yields no die, whatever [sides] is. *)
Theorem die_generator_empty_range (fuel : nat) (min_value max_value sides : Z) :
  max_value < min_value ->
  die_generator (S fuel) min_value max_value sides = Some [].
Proof.
  intros H. simpl. rewrite range_nil by lia. reflexivity.
Qed.

(** X1 at [min_value = 3, max_value = 1, sides = 0]. *)
Lemma die_generator_empty_range_witness :
  1 < 3 /\ die_generator 1 3 1 0 = Some [].
Proof. split; [lia|]. apply (die_generator_empty_range 0 3 1 0). lia. Defined.

(** X2.  The recursion only stops at [sides == 1].  From [sides <= 0]
    with a first side that is not negative it goes down for ever: the
    generator does not return, whatever depth is allowed. *)
Theorem die_generator_no_base_case (min_value max_value sides : Z) :
  sides <= 0 -> min_value <= max_value -> 0 <= max_value ->
  forall fuel, die_generator fuel min_value max_value sides = None.
Proof.
  intros Hs Hr Hm fuel. revert min_value max_value sides Hs Hr Hm.
  induction fuel as [|fuel IH]; intros lo hi sides Hs Hr Hm; [reflexivity|].
  simpl. apply for_yield_none with (x := hi); [apply in_range; lia|].
  destruct (Z.eqb_spec sides 1); [lia|].
  rewrite IH by lia. reflexivity.
Qed.

(** X2 at [min_value = 0, max_value = 4, sides = 0], with depth 50. *)
Lemma die_generator_no_base_case_witness :
  0 <= 0 /\ 0 <= 4 /\ die_generator 50 0 4 0 = None.
Proof.
  split; [lia|]. split; [lia|].
  apply (die_generator_no_base_case 0 4 0); lia.
Defined.

(** X3.  After a negative first side the inner call has the empty range
    [range(0, first_side + 1)].  So with [max_value < 0] and
    [sides <> 1] the generator yields no die at all. *)
Theorem die_generator_negative_max (fuel : nat) (min_value max_value sides : Z) :
  max_value < 0 -> sides <> 1 ->
  die_generator (S (S fuel)) min_value max_value sides = Some [].
Proof.
  intros Hm Hs.
  change (die_generator (S (S fuel)) min_value max_value sides)
    with (for_yield
            (fun first_side =>
               if sides =? 1 then Some [[first_side]]
               else
                 match die_generator (S fuel) 0 first_side (sides - 1) with
                 | Some gen => Some (map (fun die => first_side :: die) gen)
                 | None => None
                 end)
            (range min_value (max_value + 1))).
  rewrite for_yield_some with (g := fun _ => []); [rewrite flat_map_nil; reflexivity|].
  intros v Hv. apply in_range in Hv.
  destruct (Z.eqb_spec sides 1); [contradiction|].
  cbn [die_generator]. rewrite range_nil by lia. reflexivity.
Qed.

(** X3 at [min_value = -3, max_value = -1, sides = 2]. *)
Lemma die_generator_negative_max_witness :
  -1 < 0 /\ 2 <> 1 /\ die_generator 2 (-3) (-1) 2 = Some [].
Proof.
  split; [lia|]. split; [lia|].
  apply (die_generator_negative_max 0 (-3) (-1) 2); lia.
Defined.

(** X4.  What the generator yields when [sides >= 1], for any
    [min_value] and [max_value]: exactly the non-increasing tuples of
    [sides] faces whose first face lies in [[min_value, max_value]] and
    whose other faces lie between [0] and the first face. *)
Theorem die_generator_members (min_value max_value sides : Z) :
  1 <= sides ->
  exists ds,
    die_generator (Z.to_nat sides) min_value max_value sides = Some ds /\
    forall d, In d ds <->
      length d = Z.to_nat sides /\ non_increasing d /\
      exists v rest,
        d = v :: rest /\ min_value <= v <= max_value /\ within 0 v rest.
Proof.
  intros Hs. exists (dice (Z.to_nat (sides - 1)) min_value max_value).
  split; [apply die_generator_dice; lia|].
  intros d. rewrite in_dice_iff.
  replace (S (Z.to_nat (sides - 1))) with (Z.to_nat sides) by lia. tauto.
Qed.

(** X4 at [min_value = 1, max_value = 2, sides = 2]. *)
Lemma die_generator_members_witness :
  1 <= 2 /\
  exists ds,
    die_generator (Z.to_nat 2) 1 2 2 = Some ds /\
    forall d, In d ds <->
      length d = Z.to_nat 2 /\ non_increasing d /\
      exists v rest, d = v :: rest /\ 1 <= v <= 2 /\ within 0 v rest.
Proof. split; [lia|]. apply (die_generator_members 1 2 2). lia. Defined.

(** X5.  The number of dice yielded for [0 <= min_value <= max_value]
    and [sides >= 1] is [C(max_value + sides, sides)] less
    [C(min_value - 1 + sides, sides)]: the first face starts at
    [min_value] and the others at [0]. *)
Theorem die_generator_count (min_value max_value sides : Z) :
  0 <= min_value <= max_value -> 1 <= sides ->
  exists ds,
    die_generator (Z.to_nat sides) min_value max_value sides = Some ds /\
    (length ds + binom (Z.to_nat (min_value - 1 + sides)) (Z.to_nat sides)
     = binom (Z.to_nat (max_value + sides)) (Z.to_nat sides))%nat.
Proof.
  intros Hr Hs. exists (dice (Z.to_nat (sides - 1)) min_value max_value).
  split; [apply die_generator_dice; lia|].
  pose proof (dice_split (Z.to_nat (sides - 1)) min_value max_value ltac:(lia)) as E.
  apply (f_equal (@length die)) in E. rewrite length_app in E.
  rewrite !dice_count_Z in E by lia.
  replace (Z.to_nat sides) with (S (Z.to_nat (sides - 1))) by lia.
  replace (Z.to_nat (min_value - 1 + sides))
    with (Z.to_nat (min_value - 1 + 1 + Z.of_nat (Z.to_nat (sides - 1)))) by lia.
  replace (Z.to_nat (max_value + sides))
    with (Z.to_nat (max_value + 1 + Z.of_nat (Z.to_nat (sides - 1)))) by lia.
  lia.
Qed.

(** X5 at [min_value = 1, max_value = 2, sides = 2]: [5 + 1 = 6]. *)
Lemma die_generator_count_witness :
  0 <= 1 <= 2 /\ 1 <= 2 /\
  exists ds,
    die_generator (Z.to_nat 2) 1 2 2 = Some ds /\
    (length ds + binom (Z.to_nat (1 - 1 + 2)) (Z.to_nat 2)
     = binom (Z.to_nat (2 + 2)) (Z.to_nat 2))%nat.
Proof.
  split; [lia|]. split; [lia|]. apply (die_generator_count 1 2 2); lia.
Defined.

Lemma dice_snoc (n : nat) (lo hi : Z) :
  lo <= hi + 1 ->
  dice n lo (hi + 1) = dice n lo hi ++ dice n (hi + 1) (hi + 1).
Proof.
  intros H. destruct n; simpl;
    rewrite (range_app lo (hi + 1) (hi + 1 + 1)) by lia;
    rewrite flat_map_app; reflexivity.
Qed.

(** X6.  Raising [max_value] by one keeps the sequence and appends, at
    its end, the dice whose first face is the new value. *)
Theorem die_generator_raise_max (min_value max_value sides : Z) :
  1 <= sides -> min_value <= max_value + 1 ->
  exists ds more,
    die_generator (Z.to_nat sides) min_value max_value sides = Some ds /\
    die_generator (Z.to_nat sides) min_value (max_value + 1) sides
    = Some (ds ++ more) /\
    forall d, In d more -> exists rest, d = (max_value + 1) :: rest.
Proof.
  intros Hs Hr.
  exists (dice (Z.to_nat (sides - 1)) min_value max_value),
         (dice (Z.to_nat (sides - 1)) (max_value + 1) (max_value + 1)).
  split; [apply die_generator_dice; lia|]. split.
  - rewrite die_generator_dice by lia. rewrite dice_snoc by lia. reflexivity.
  - intros d Hd. apply dice_first_side in Hd.
    destruct Hd as (v & rest & -> & Hv). exists rest. f_equal. lia.
Qed.

(** X6 at [min_value = 0, max_value = 1, sides = 2]. *)
Lemma die_generator_raise_max_witness :
  1 <= 2 /\ 0 <= 1 + 1 /\
  exists ds more,
    die_generator (Z.to_nat 2) 0 1 2 = Some ds /\
    die_generator (Z.to_nat 2) 0 (1 + 1) 2 = Some (ds ++ more) /\
    forall d, In d more -> exists rest, d = (1 + 1) :: rest.
Proof.
  split; [lia|]. split; [lia|]. apply (die_generator_raise_max 0 1 2); lia.
Defined.

(** * Further properties of the comparator *)

Lemma pairs_where_ext (p q : Z -> Z -> bool) (A B : die) :
  (forall a b, p a b = q a b) -> pairs_where p A B = pairs_where q A B.
Proof.
  intros H. unfold pairs_where. do 2 f_equal. apply filter_ext.
  intros [a b]. apply H.
Qed.

Lemma pairs_where_perm_l (p : Z -> Z -> bool) (A A' B : die) :
  Permutation A A' -> pairs_where p A B = pairs_where p A' B.
Proof.
  induction 1 as [|a A A' _ IH|a a' A|A A' A'' _ IH1 _ IH2].
  - reflexivity.
  - rewrite !pairs_where_cons_l, IH. reflexivity.
  - rewrite !pairs_where_cons_l. lia.
  - congruence.
Qed.

Lemma pairs_where_perm (p : Z -> Z -> bool) (A A' B B' : die) :
  Permutation A A' -> Permutation B B' ->
  pairs_where p A B = pairs_where p A' B'.
Proof.
  intros HA HB. rewrite (pairs_where_perm_l p A A' B HA).
  rewrite (pairs_where_swap p A' B), (pairs_where_swap p A' B').
  apply pairs_where_perm_l, HB.
Qed.

Lemma sum_if_map (q : Z -> bool) (f : Z -> Z) (l : die) :
  sum_if q (map f l) = sum_if (fun x => q (f x)) l.
Proof.
  rewrite !sum_if_filter. induction l as [|x l IH]; simpl; [reflexivity|].
  destruct (q (f x)); simpl length; lia.
Qed.

Lemma pairs_where_map (p : Z -> Z -> bool) (f : Z -> Z) (A B : die) :
  pairs_where p (map f A) (map f B) = pairs_where (fun a b => p (f a) (f b)) A B.
Proof.
  induction A as [|a A IH]; simpl map.
  - rewrite !pairs_where_nil_l. reflexivity.
  - rewrite !pairs_where_cons_l, IH, sum_if_map. reflexivity.
Qed.

(** X7.  A die without faces takes part in no face pair: it neither
    beats nor is beaten by any die. *)
Theorem is_best_no_faces (A : die) :
  is_best [] A = false /\ is_best A [] = false.
Proof.
  rewrite !is_best_counts. unfold wins, ties.
  rewrite !pairs_where_nil_l, !pairs_where_nil_r. simpl length.
  split; [reflexivity|]. rewrite Z.mul_0_r. reflexivity.
Qed.

(** X8.  The verdict does not depend on the order in which the faces of
    either die are listed. *)
Theorem is_best_face_order (A A' B B' : die) :
  Permutation A A' -> Permutation B B' -> is_best A B = is_best A' B'.
Proof.
  intros HA HB. rewrite !is_best_counts. unfold wins, ties.
  rewrite (pairs_where_perm Z.gtb A A' B B' HA HB).
  rewrite (pairs_where_perm Z.eqb A A' B B' HA HB).
  rewrite (Permutation_length HA), (Permutation_length HB). reflexivity.
Qed.

(** X8 on [(4,4,0,0)] against [(3,3,3,1)], each listed in another order. *)
Lemma is_best_face_order_witness :
  Permutation [4; 4; 0; 0] [0; 4; 0; 4] /\
  Permutation [3; 3; 3; 1] [1; 3; 3; 3] /\
  is_best [4; 4; 0; 0] [3; 3; 3; 1] = is_best [0; 4; 0; 4] [1; 3; 3; 3].
Proof.
  assert (H1 : Permutation [4; 4; 0; 0] [0; 4; 0; 4]).
  { apply perm_trans with [4; 0; 4; 0].
    - apply perm_skip, perm_swap.
    - apply perm_trans with [0; 4; 4; 0]; [apply perm_swap|].
      do 2 apply perm_skip. apply perm_swap. }
  assert (H2 : Permutation [3; 3; 3; 1] [1; 3; 3; 3]).
  { apply Permutation_sym. apply (Permutation_cons_append [3; 3; 3] 1). }
  split; [exact H1|]. split; [exact H2|].
  apply (is_best_face_order _ _ _ _ H1 H2).
Defined.

(** X9.  Only the order between face values matters: renaming the
    values of both dice by a strictly increasing function leaves the
    verdict unchanged. *)
Theorem is_best_relabel (f : Z -> Z) (A B : die) :
  (forall x y, x < y -> f x < f y) ->
  is_best (map f A) (map f B) = is_best A B.
Proof.
  intros Hf. rewrite !is_best_counts. unfold wins, ties.
  rewrite !pairs_where_map, !length_map.
  rewrite (pairs_where_ext (fun a b => f a >? f b) Z.gtb).
  - rewrite (pairs_where_ext (fun a b => f a =? f b) Z.eqb); [reflexivity|].
    intros a b. destruct (Z.eqb_spec a b) as [->|Hne]; [apply Z.eqb_refl|].
    apply Z.eqb_neq.
    destruct (Z.lt_total a b) as [H|[H|H]]; [|contradiction|];
      apply Hf in H; lia.
  - intros a b. rewrite !Z.gtb_ltb. destruct (Z.ltb_spec b a) as [H|H].
    + apply Z.ltb_lt, Hf, H.
    + apply Z.ltb_ge. destruct (Z.eq_dec a b) as [->|Hne]; [lia|].
      assert (Hlt : a < b) by lia. apply Hf in Hlt. lia.
Qed.

(** X9 with every face value doubled and raised by one. *)
Lemma is_best_relabel_witness :
  (forall x y, x < y -> 2 * x + 1 < 2 * y + 1) /\
  is_best (map (fun x => 2 * x + 1) [4; 4; 0; 0])
          (map (fun x => 2 * x + 1) [3; 3; 3; 1])
  = is_best [4; 4; 0; 0] [3; 3; 3; 1].
Proof.
  split; [intros; lia|].
  apply (is_best_relabel (fun x => 2 * x + 1)). intros; lia.
Defined.

(** * Further properties of the construction *)

Lemma win_list_build_pairs (done : list (die * die)) (A : die) :
  win_list (build_pairs done []) A
  = map snd
      (filter (fun p => if die_eq_dec (fst p) A
                        then is_best (fst p) (snd p) else false) done).
Proof.
  induction done as [|[a b] done IH] using rev_ind; [reflexivity|].
  rewrite build_pairs_snoc, filter_app, map_app. unfold compare_pair. simpl.
  destruct (is_best a b) eqn:E.
  - rewrite win_list_append_lose, win_list_append_win.
    destruct (die_eq_dec a A) as [->|Hne]; simpl.
    + rewrite IH. reflexivity.
    + rewrite app_nil_r. exact IH.
  - destruct (die_eq_dec a A); simpl; rewrite app_nil_r; exact IH.
Qed.

Lemma lose_list_build_pairs (done : list (die * die)) (B : die) :
  lose_list (build_pairs done []) B
  = map fst
      (filter (fun p => if die_eq_dec (snd p) B
                        then is_best (fst p) (snd p) else false) done).
Proof.
  induction done as [|[a b] done IH] using rev_ind; [reflexivity|].
  rewrite build_pairs_snoc, filter_app, map_app. unfold compare_pair. simpl.
  destruct (is_best a b) eqn:E.
  - rewrite lose_list_append_lose, !lose_list_append_win.
    destruct (die_eq_dec b B) as [->|Hne]; simpl.
    + rewrite IH. reflexivity.
    + rewrite app_nil_r. exact IH.
  - destruct (die_eq_dec b B); simpl; rewrite app_nil_r; exact IH.
Qed.

Lemma in_graph_append_win (g : graph) (this oponent k : die) :
  in_graph (append_win g this oponent) k <-> this = k \/ in_graph g k.
Proof.
  unfold in_graph. rewrite lookup_append_win.
  destruct (die_eq_dec this k); split; intros H; auto; try discriminate.
  destruct H as [H|H]; [contradiction|exact H].
Qed.

Lemma in_graph_append_lose (g : graph) (oponent this k : die) :
  in_graph (append_lose g oponent this) k <-> oponent = k \/ in_graph g k.
Proof.
  unfold in_graph. rewrite lookup_append_lose.
  destruct (die_eq_dec oponent k); split; intros H; auto; try discriminate.
  destruct H as [H|H]; [contradiction|exact H].
Qed.

(** The keys are the dice of the decisive pairs met so far. *)
Lemma in_graph_build_pairs (done : list (die * die)) (k : die) :
  in_graph (build_pairs done []) k <->
  exists a b, In (a, b) done /\ is_best a b = true /\ (a = k \/ b = k).
Proof.
  induction done as [|[a b] done IH] using rev_ind.
  - unfold in_graph. simpl. split; [congruence|]. intros (? & ? & [] & _).
  - rewrite build_pairs_snoc. unfold compare_pair. simpl.
    assert (Hmore : (exists a0 b0, In (a0, b0) done /\ is_best a0 b0 = true /\
                                   (a0 = k \/ b0 = k)) ->
                    exists a0 b0, In (a0, b0) (done ++ [(a, b)]) /\
                                  is_best a0 b0 = true /\ (a0 = k \/ b0 = k)).
    { intros (a0 & b0 & Hin & Hb & Hk). exists a0, b0.
      split; [apply in_or_app; left; exact Hin|]. tauto. }
    destruct (is_best a b) eqn:E.
    + rewrite in_graph_append_lose, in_graph_append_win, IH. split.
      * intros [<-|[<-|H]]; [| |exact (Hmore H)];
          exists a, b; (split; [apply in_or_app; right; left; reflexivity|]);
          tauto.
      * intros (a0 & b0 & Hin & Hb & Hk). apply in_app_or in Hin.
        destruct Hin as [Hin|[[= <- <-]|[]]]; [|tauto].
        right; right. exists a0, b0. tauto.
    + rewrite IH. split; [exact Hmore|].
      intros (a0 & b0 & Hin & Hb & Hk). apply in_app_or in Hin.
      destruct Hin as [Hin|[[= <- <-]|[]]]; [|congruence].
      exists a0, b0. tauto.
Qed.

Lemma filter_none {A : Type} (f : A -> bool) (l : list A) :
  (forall x, In x l -> f x = false) -> filter f l = [].
Proof.
  induction l as [|x l IH]; intros H; simpl; [reflexivity|].
  rewrite (H x) by (left; reflexivity).
  apply IH. intros y Hy. apply H. right; exact Hy.
Qed.

Section CrossProduct.

Variable q : die -> die -> bool.

Lemma row_of_first (x A : die) (l2 : list die) :
  map snd (filter (fun p => if die_eq_dec (fst p) A then q (fst p) (snd p) else false)
             (map (fun y => (x, y)) l2))
  = if die_eq_dec x A then filter (q A) l2 else [].
Proof.
  induction l2 as [|y l2 IH]; simpl.
  - destruct (die_eq_dec x A); reflexivity.
  - destruct (die_eq_dec x A) as [->|Hne]; [|exact IH].
    destruct (q A y); simpl; rewrite IH; reflexivity.
Qed.

Lemma cross_by_first (A : die) (l1 l2 : list die) :
  NoDup l1 -> In A l1 ->
  map snd (filter (fun p => if die_eq_dec (fst p) A then q (fst p) (snd p) else false)
             (list_prod l1 l2))
  = filter (q A) l2.
Proof.
  induction 1 as [|x l1 Hx Hnd IH]; intros Hin; [destruct Hin|].
  simpl. rewrite filter_app, map_app, row_of_first.
  destruct (die_eq_dec x A) as [->|Hne].
  - rewrite (filter_none _ (list_prod l1 l2)); [apply app_nil_r|].
    intros [a b] Hp. apply in_prod_iff in Hp. simpl.
    destruct (die_eq_dec a A) as [->|_]; [|reflexivity].
    destruct (Hx (proj1 Hp)).
  - destruct Hin as [->|Hin]; [contradiction|]. exact (IH Hin).
Qed.

Lemma row_of_second (x B : die) (l2 : list die) :
  NoDup l2 -> In B l2 ->
  map fst (filter (fun p => if die_eq_dec (snd p) B then q (fst p) (snd p) else false)
             (map (fun y => (x, y)) l2))
  = if q x B then [x] else [].
Proof.
  induction 1 as [|y l2 Hy Hnd IH]; intros Hin; [destruct Hin|].
  simpl. destruct (die_eq_dec y B) as [->|Hne].
  - rewrite (filter_none _ (map (fun y => (x, y)) l2)).
    + destruct (q x B); reflexivity.
    + intros [a b] Hp. apply in_map_iff in Hp.
      destruct Hp as (y & [= <- <-] & Hy'). simpl.
      destruct (die_eq_dec y B) as [->|_]; [|reflexivity].
      destruct (Hy Hy').
  - destruct Hin as [->|Hin]; [contradiction|]. exact (IH Hin).
Qed.

Lemma cross_by_second (B : die) (l1 l2 : list die) :
  NoDup l2 -> In B l2 ->
  map fst (filter (fun p => if die_eq_dec (snd p) B then q (fst p) (snd p) else false)
             (list_prod l1 l2))
  = filter (fun a => q a B) l1.
Proof.
  intros Hnd Hin. induction l1 as [|x l1 IH]; [reflexivity|].
  simpl. rewrite filter_app, map_app, (row_of_second _ _ _ Hnd Hin), IH.
  destruct (q x B); reflexivity.
Qed.

End CrossProduct.

(** X10.  When the generated dice are distinct, the construction leaves
    under each die [A] of the sequence the list of the dice it beats
    and the list of the dice that beat it, both in generation order. *)
Theorem build_lists (dice : list die) (A : die) :
  NoDup dice -> In A dice ->
  win_list (build dice) A = filter (fun B => is_best A B) dice /\
  lose_list (build dice) A = filter (fun B => is_best B A) dice.
Proof.
  intros Hnd Hin. unfold build. rewrite build_from_pairs.
  rewrite win_list_build_pairs, lose_list_build_pairs.
  rewrite (cross_by_first is_best A dice dice Hnd Hin).
  rewrite (cross_by_second is_best A dice dice Hnd Hin).
  split; reflexivity.
Qed.

(** X10 on the dice of [min_value = 0, max_value = 1, sides = 2]. *)
Lemma build_lists_witness :
  NoDup [[0; 0]; [1; 0]; [1; 1]] /\ In [1; 0] [[0; 0]; [1; 0]; [1; 1]] /\
  win_list (build [[0; 0]; [1; 0]; [1; 1]]) [1; 0]
  = filter (fun B => is_best [1; 0] B) [[0; 0]; [1; 0]; [1; 1]] /\
  lose_list (build [[0; 0]; [1; 0]; [1; 1]]) [1; 0]
  = filter (fun B => is_best B [1; 0]) [[0; 0]; [1; 0]; [1; 1]].
Proof.
  assert (Hnd : NoDup [[0; 0]; [1; 0]; [1; 1]])
    by (repeat constructor; simpl; intuition discriminate).
  assert (Hin : In [1; 0] [[0; 0]; [1; 0]; [1; 1]])
    by (right; left; reflexivity).
  split; [exact Hnd|]. split; [exact Hin|].
  apply (build_lists _ _ Hnd Hin).
Defined.

(** X11.  A die gets an entry in the graph exactly when it is one of
    the dice and some comparison with a die of the sequence is
    decisive: dice that only tie are never inserted. *)
Theorem build_keys (dice : list die) (A : die) :
  in_graph (build dice) A <->
  In A dice /\
  exists B, In B dice /\ (is_best A B = true \/ is_best B A = true).
Proof.
  unfold build. rewrite build_from_pairs, in_graph_build_pairs. split.
  - intros (a & b & Hin & Hb & [<-|<-]); apply in_prod_iff in Hin.
    + split; [tauto|]. exists b. tauto.
    + split; [tauto|]. exists a. tauto.
  - intros (HA & B & HB & [Hb|Hb]).
    + exists A, B. split; [apply in_prod_iff; tauto|]. tauto.
    + exists B, A. split; [apply in_prod_iff; tauto|]. tauto.
Qed.

Lemma closed_build_pairs (done : list (die * die)) :
  closed (build_pairs done []).
Proof.
  intros A B [H|H].
  - rewrite win_list_build_pairs in H. apply in_map_iff in H.
    destruct H as ([a b] & <- & Hf). apply filter_In in Hf. simpl in *.
    destruct Hf as [Hin Hb]. destruct (die_eq_dec a A); [|discriminate].
    apply in_graph_build_pairs. exists a, b. tauto.
  - rewrite lose_list_build_pairs in H. apply in_map_iff in H.
    destruct H as ([a b] & <- & Hf). apply filter_In in Hf. simpl in *.
    destruct Hf as [Hin Hb]. destruct (die_eq_dec b A); [|discriminate].
    apply in_graph_build_pairs. exists a, b. tauto.
Qed.

Lemma build_closed (dice : list die) : closed (build dice).
Proof. unfold build. rewrite build_from_pairs. apply closed_build_pairs. Qed.

(** X12.  After the construction every die named in a win list or in a
    lose list has an entry of its own, and no entry holds two empty
    lists. *)
Theorem build_entries (dice : list die) :
  closed (build dice) /\
  forall k v, In (k, v) (build dice) -> fst v <> [] \/ snd v <> [].
Proof.
  split; [apply build_closed|].
  intros k v Hin. apply (In_lookup _ _ _ (build_keys_NoDup dice)) in Hin.
  assert (Hk : in_graph (build dice) k) by (unfold in_graph; congruence).
  assert (Hw : win_list (build dice) k = fst v)
    by (unfold win_list; rewrite Hin; reflexivity).
  assert (Hl : lose_list (build dice) k = snd v)
    by (unfold lose_list; rewrite Hin; reflexivity).
  rewrite <- Hw, <- Hl. clear Hin Hw Hl. revert Hk.
  unfold build. rewrite build_from_pairs, in_graph_build_pairs.
  rewrite win_list_build_pairs, lose_list_build_pairs.
  intros (a & b & Hin & Hb & [<-|<-]); [left|right]; intros E.
  - assert (H : In b (map snd (filter (fun p : die * die =>
        if die_eq_dec (fst p) a then is_best (fst p) (snd p) else false)
        (list_prod dice dice)))).
    { apply in_map_iff. exists (a, b). split; [reflexivity|].
      apply filter_In. split; [exact Hin|]. simpl.
      destruct (die_eq_dec a a); [exact Hb|congruence]. }
    rewrite E in H. destruct H.
  - assert (H : In a (map fst (filter (fun p : die * die =>
        if die_eq_dec (snd p) b then is_best (fst p) (snd p) else false)
        (list_prod dice dice)))).
    { apply in_map_iff. exists (a, b). split; [reflexivity|].
      apply filter_In. split; [exact Hin|]. simpl.
      destruct (die_eq_dec b b); [exact Hb|congruence]. }
    rewrite E in H. destruct H.
Qed.

(** * Further properties of the reducer *)

Lemma In_del (g : graph) (k : die) (x : die * entry) :
  In x (del g k) -> In x g.
Proof.
  induction g as [|[k' v] g IH]; simpl; [tauto|].
  destruct (die_eq_dec k' k); simpl; tauto.
Qed.

Lemma In_fold_del (deleted : list die) :
  forall g x, In x (fold_left del deleted g) -> In x g.
Proof.
  induction deleted as [|d deleted IH]; intros g x H; simpl in H; [exact H|].
  eapply In_del, IH, H.
Qed.

Lemma remove_first_incl (d x : die) (l : list die) :
  In x (remove_first d l) -> In x l.
Proof.
  induction l as [|y l IH]; simpl; [tauto|].
  destruct (die_eq_dec y d); simpl; tauto.
Qed.

Lemma discard_incl (d x : die) (l : list die) : In x (discard d l) -> In x l.
Proof.
  unfold discard. destruct (in_dec die_eq_dec d l); [apply remove_first_incl|tauto].
Qed.

Lemma fold_discard_incl (deleted : list die) (x : die) :
  forall l, In x (fold_left (fun l d => discard d l) deleted l) -> In x l.
Proof.
  induction deleted as [|d deleted IH]; intros l H; simpl in H; [exact H|].
  eapply discard_incl, IH, H.
Qed.

Lemma remove_first_NoDup (d : die) (l : list die) :
  NoDup l -> NoDup (remove_first d l) /\ ~ In d (remove_first d l).
Proof.
  induction 1 as [|y l Hy Hnd [IH1 IH2]]; simpl; [split; [constructor|tauto]|].
  destruct (die_eq_dec y d) as [->|Hne]; [split; assumption|].
  split.
  - constructor; [|exact IH1]. intros H. apply Hy. eapply remove_first_incl, H.
  - simpl. intros [H|H]; [contradiction|exact (IH2 H)].
Qed.

Lemma discard_NoDup (d : die) (l : list die) :
  NoDup l -> NoDup (discard d l) /\ ~ In d (discard d l).
Proof.
  intros H. unfold discard. destruct (in_dec die_eq_dec d l) as [Hin|Hout].
  - apply remove_first_NoDup, H.
  - split; assumption.
Qed.

(** On a list without repeats the inner loop removes every deleted die. *)
Lemma fold_discard_NoDup (deleted : list die) :
  forall l, NoDup l ->
    NoDup (fold_left (fun l d => discard d l) deleted l) /\
    forall x, In x deleted ->
      ~ In x (fold_left (fun l d => discard d l) deleted l).
Proof.
  induction deleted as [|d deleted IH]; intros l Hnd; simpl;
    [split; [exact Hnd|tauto]|].
  destruct (discard_NoDup d l Hnd) as [H1 H2].
  destruct (IH _ H1) as [H3 H4]. split; [exact H3|].
  intros x [<-|Hx]; [|exact (H4 x Hx)].
  intros H. apply H2. eapply fold_discard_incl, H.
Qed.

Lemma In_pass (g : graph) (k : die) (v' : entry) :
  In (k, v') (pass g) ->
  exists v, In (k, v) g /\ v' = prune (to_delete g) v.
Proof.
  unfold pass. intros H. apply in_map_iff in H.
  destruct H as ([k0 v] & [= <- <-] & Hin). exists v.
  split; [eapply In_fold_del, Hin|reflexivity].
Qed.

Lemma to_delete_lists (g : graph) (k : die) :
  NoDup (keys g) -> In k (to_delete g) ->
  win_list g k = [] \/ lose_list g k = [].
Proof.
  intros Hnd H. unfold to_delete in H. apply in_map_iff in H.
  destruct H as ([k0 v] & <- & Hf). apply filter_In in Hf.
  destruct Hf as [Hin Hb]. simpl in *.
  apply (In_lookup _ _ _ Hnd) in Hin. unfold win_list, lose_list.
  rewrite Hin. apply orb_true_iff in Hb.
  destruct v as [[|? ?] [|? ?]]; simpl in *; intuition discriminate.
Qed.

Lemma fold_discard_nil (deleted : list die) :
  fold_left (fun l d => discard d l) deleted [] = [].
Proof. induction deleted as [|d deleted IH]; [reflexivity|exact IH]. Qed.

Lemma win_list_pass (g : graph) (k : die) :
  NoDup (keys g) -> ~ In k (to_delete g) ->
  win_list (pass g) k
  = fold_left (fun l d => discard d l) (to_delete g) (win_list g k).
Proof.
  intros Hnd Hk. unfold win_list. rewrite lookup_pass by exact Hnd.
  destruct (in_dec die_eq_dec k (to_delete g)); [contradiction|].
  destruct (lookup g k) as [v|]; simpl.
  - rewrite prune_lists. reflexivity.
  - rewrite fold_discard_nil. reflexivity.
Qed.

Lemma lose_list_pass (g : graph) (k : die) :
  NoDup (keys g) -> ~ In k (to_delete g) ->
  lose_list (pass g) k
  = fold_left (fun l d => discard d l) (to_delete g) (lose_list g k).
Proof.
  intros Hnd Hk. unfold lose_list. rewrite lookup_pass by exact Hnd.
  destruct (in_dec die_eq_dec k (to_delete g)); [contradiction|].
  destruct (lookup g k) as [v|]; simpl.
  - rewrite prune_lists. reflexivity.
  - rewrite fold_discard_nil. reflexivity.
Qed.

Lemma in_graph_pass (g : graph) (k : die) :
  NoDup (keys g) ->
  (in_graph (pass g) k <-> in_graph g k /\ ~ In k (to_delete g)).
Proof.
  intros Hnd. unfold in_graph. rewrite lookup_pass by exact Hnd.
  destruct (in_dec die_eq_dec k (to_delete g)) as [Hin|Hout].
  - split; [congruence|tauto].
  - destruct (lookup g k); simpl; split; intros H; try tauto;
      try (split; [discriminate|exact Hout]); discriminate.
Qed.

Lemma in_graph_keys (g : graph) (k : die) : in_graph g k <-> In k (keys g).
Proof.
  unfold in_graph. split.
  - intros H. destruct (in_dec die_eq_dec k (keys g)) as [Hin|Hout]; [exact Hin|].
    apply lookup_None in Hout. contradiction.
  - intros Hin E. apply lookup_None in E. exact (E Hin).
Qed.

(** The three facts a pass keeps together: unique keys, lists without
    repeats, and no die named without an entry. *)
Lemma tidy_pass (g : graph) :
  NoDup (keys g) /\ no_repeats g /\ closed g ->
  NoDup (keys (pass g)) /\ no_repeats (pass g) /\ closed (pass g).
Proof.
  intros (Hk & Hr & Hc). split; [apply keys_pass_NoDup, Hk|]. split.
  - intros k v' Hin. apply In_pass in Hin. destruct Hin as (v & Hin & ->).
    destruct (Hr k v Hin) as [Hw Hl]. rewrite prune_lists. simpl.
    split; apply fold_discard_NoDup; assumption.
  - assert (Hnd : forall A, NoDup (win_list g A) /\ NoDup (lose_list g A)).
    { intros A. unfold win_list, lose_list.
      destruct (lookup g A) as [v|] eqn:E; [|split; constructor].
      exact (Hr A v (lookup_In _ _ _ E)). }
    intros A B H.
    assert (HA : ~ In A (to_delete g)).
    { intros Hin. unfold win_list, lose_list in H.
      rewrite lookup_pass in H by exact Hk.
      destruct (in_dec die_eq_dec A (to_delete g)); [|contradiction].
      simpl in H. tauto. }
    rewrite win_list_pass, lose_list_pass in H by assumption.
    apply in_graph_pass; [exact Hk|]. split.
    + apply (Hc A B).
      destruct H as [H|H]; [left|right]; eapply fold_discard_incl, H.
    + intros HB.
      destruct H as [H|H];
        [destruct (fold_discard_NoDup (to_delete g) _ (proj1 (Hnd A))) as [_ Hout]
        |destruct (fold_discard_NoDup (to_delete g) _ (proj2 (Hnd A))) as [_ Hout]];
        exact (Hout B HB H).
Qed.

(** A self-supporting set passes the scan untouched. *)
Lemma self_supporting_pass (S : list die) (g : graph) :
  NoDup (keys g) /\ self_supporting g S ->
  NoDup (keys (pass g)) /\ self_supporting (pass g) S.
Proof.
  intros [Hk Hs]. split; [apply keys_pass_NoDup, Hk|].
  assert (Hout : forall s, In s S -> ~ In s (to_delete g)).
  { intros s Hin Hd. destruct (Hs s Hin) as [(t & _ & Ht) (t' & _ & Ht')].
    destruct (to_delete_lists g s Hk Hd) as [E|E];
      [rewrite E in Ht; destruct Ht|rewrite E in Ht'; destruct Ht']. }
  intros s Hin. destruct (Hs s Hin) as [(t & HtS & Ht) (t' & HtS' & Ht')].
  rewrite win_list_pass, lose_list_pass by auto.
  split; [exists t|exists t']; (split; [assumption|]);
    apply In_fold_discard; auto.
Qed.

Lemma pass_lists_incl (g : graph) (s t : die) :
  NoDup (keys g) ->
  (In t (win_list (pass g) s) -> In t (win_list g s)) /\
  (In t (lose_list (pass g) s) -> In t (lose_list g s)).
Proof.
  intros Hk.
  destruct (in_dec die_eq_dec s (to_delete g)) as [Hin|Hout].
  - unfold win_list, lose_list. rewrite lookup_pass by exact Hk.
    destruct (in_dec die_eq_dec s (to_delete g)); [|contradiction].
    simpl. tauto.
  - rewrite win_list_pass, lose_list_pass by assumption.
    split; apply fold_discard_incl.
Qed.

Lemma clean_self_supporting (S : list die) (fuel : nat) (g g' : graph) :
  NoDup (keys g) -> self_supporting g S -> clean fuel g = Some g' ->
  self_supporting g' S.
Proof.
  intros Hk Hs Hc.
  apply (clean_preserves (fun g => NoDup (keys g) /\ self_supporting g S)
           (self_supporting_pass S) _ _ _ (conj Hk Hs) Hc).
Qed.

Lemma clean_tidy_graph (fuel : nat) (g g' : graph) :
  NoDup (keys g) -> no_repeats g -> closed g -> clean fuel g = Some g' ->
  NoDup (keys g') /\ no_repeats g' /\ closed g'.
Proof.
  intros Hk Hr Hc Hcl.
  apply (clean_preserves
           (fun g => NoDup (keys g) /\ no_repeats g /\ closed g)
           tidy_pass _ _ _ (conj Hk (conj Hr Hc)) Hcl).
Qed.

Lemma clean_lists_incl (fuel : nat) :
  forall g g', NoDup (keys g) -> clean fuel g = Some g' ->
    forall s t,
      (In t (win_list g' s) -> In t (win_list g s)) /\
      (In t (lose_list g' s) -> In t (lose_list g s)).
Proof.
  induction fuel as [|fuel IH]; intros g g' Hk Hc s t; [discriminate|].
  simpl in Hc. destruct (is_empty (to_delete g)).
  - injection Hc as <-. tauto.
  - destruct (IH _ _ (keys_pass_NoDup _ Hk) Hc s t) as [H1 H2].
    destruct (pass_lists_incl g s t Hk) as [H3 H4]. tauto.
Qed.

Lemma filter_keys_NoDup (f : die * entry -> bool) (g : graph) :
  NoDup (keys g) -> NoDup (keys (filter f g)).
Proof.
  induction g as [|[k v] g IH]; simpl; intros H; [constructor|].
  apply NoDup_cons_iff in H. destruct H as [Hk H].
  destruct (f (k, v)); [|exact (IH H)].
  simpl. constructor; [|exact (IH H)].
  intros Hin. apply Hk. unfold keys in *. apply in_map_iff in Hin.
  destruct Hin as (x & <- & Hx). apply filter_In in Hx. apply in_map, Hx.
Qed.

Lemma keys_del_other (g : graph) (d k : die) :
  In k (keys g) -> k <> d -> In k (keys (del g d)).
Proof.
  induction g as [|[k' v] g IH]; simpl; [tauto|].
  destruct (die_eq_dec k' d) as [->|Hne]; simpl.
  - intros [H|H] Hk; [congruence|exact H].
  - intros [H|H] Hk; [left; exact H|right; exact (IH H Hk)].
Qed.

Lemma keys_fold_del_other (deleted : list die) (k : die) :
  forall g, In k (keys g) -> ~ In k deleted ->
    In k (keys (fold_left del deleted g)).
Proof.
  induction deleted as [|d deleted IH]; intros g Hin Hout; simpl; [exact Hin|].
  apply IH.
  - apply keys_del_other; [exact Hin|]. intros ->. apply Hout. left; reflexivity.
  - intros H. apply Hout. right; exact H.
Qed.

(** X13.  The reducer only takes away: every entry of the graph it
    returns was an entry of the graph it was given, and its two lists
    hold only dice that the lists of that entry held. *)
Theorem clean_only_removes (g : graph) :
  exists g',
    clean (S (length g)) g = Some g' /\
    forall k v', In (k, v') g' ->
      exists v, In (k, v) g /\ incl (fst v') (fst v) /\ incl (snd v') (snd v).
Proof.
  destruct (clean_returns (S (length g)) g (Nat.lt_succ_diag_r _))
    as (g' & Hc & _).
  exists g'. split; [exact Hc|].
  apply (clean_preserves
           (fun g1 => forall k v', In (k, v') g1 ->
              exists v, In (k, v) g /\
                        incl (fst v') (fst v) /\ incl (snd v') (snd v))
           ) with (fuel := S (length g)) (g := g); [| |exact Hc].
  - intros g1 H k v' Hin. apply In_pass in Hin.
    destruct Hin as (v1 & Hin & ->). destruct (H k v1 Hin) as (v & Hv & Hw & Hl).
    exists v. split; [exact Hv|]. rewrite prune_lists. simpl.
    split; intros x Hx; [apply Hw|apply Hl]; eapply fold_discard_incl, Hx.
  - intros k v' Hin. exists v'. split; [exact Hin|]. split; apply incl_refl.
Qed.

(** X14.  On a graph with unique keys, lists without repeats and no die
    named without an entry, the reducer returns a graph of the same
    kind: every die still named in a win list or a lose list has kept
    its entry, so no reference to a deleted die is left. *)
Theorem clean_no_dangling (g : graph) :
  NoDup (keys g) -> no_repeats g -> closed g ->
  exists g',
    clean (S (length g)) g = Some g' /\ closed g' /\ no_repeats g'.
Proof.
  intros Hk Hr Hc.
  destruct (clean_returns (S (length g)) g (Nat.lt_succ_diag_r _))
    as (g' & Hcl & _).
  exists g'. split; [exact Hcl|].
  destruct (clean_tidy_graph _ _ _ Hk Hr Hc Hcl) as (_ & Hr' & Hc').
  split; assumption.
Qed.

(** X14 on the graph built from the dice of the default configuration. *)
Lemma clean_no_dangling_witness :
  let g := build (dice 3 0 4) in
  NoDup (keys g) /\ no_repeats g /\ closed g /\
  exists g',
    clean (S (length g)) g = Some g' /\ closed g' /\ no_repeats g'.
Proof.
  assert (Hk : NoDup (keys (build (dice 3 0 4)))) by apply build_keys_NoDup.
  assert (Hr : no_repeats (build (dice 3 0 4))).
  { apply (during_build_no_repeats (dice 3 0 4)); [|apply build_during].
    apply ascending_NoDup, dice_ascending. }
  assert (Hc : closed (build (dice 3 0 4))) by apply build_closed.
  split; [exact Hk|]. split; [exact Hr|]. split; [exact Hc|].
  apply (clean_no_dangling _ Hk Hr Hc).
Defined.

(** The dice [(2,2,1,0) > (4,1,1,0) > (3,3,0,0) > (2,2,1,0)] of the
    default configuration beat each other in a circle. *)
Lemma default_cycle :
  self_supporting (build (dice 3 0 4))
    [[2; 2; 1; 0]; [4; 1; 1; 0]; [3; 3; 0; 0]].
Proof.
  intros s [<-|[<-|[<-|[]]]]; split.
  - exists [4; 1; 1; 0]. split; [simpl; tauto|].
    vm_compute. repeat (first [left; reflexivity|right]).
  - exists [3; 3; 0; 0]. split; [simpl; tauto|].
    vm_compute. repeat (first [left; reflexivity|right]).
  - exists [3; 3; 0; 0]. split; [simpl; tauto|].
    vm_compute. repeat (first [left; reflexivity|right]).
  - exists [2; 2; 1; 0]. split; [simpl; tauto|].
    vm_compute. repeat (first [left; reflexivity|right]).
  - exists [2; 2; 1; 0]. split; [simpl; tauto|].
    vm_compute. repeat (first [left; reflexivity|right]).
  - exists [4; 1; 1; 0]. split; [simpl; tauto|].
    vm_compute. repeat (first [left; reflexivity|right]).
Qed.

(** X15.  Dice that support each other are never pruned: if every die
    of a set beats a die of the set and is beaten by a die of the set,
    the reducer keeps all of them, with those wins and losses.  In
    particular the dice of a cycle [A > B > C > A] survive. *)
Theorem clean_keeps_self_supporting (g : graph) (S : list die) :
  NoDup (keys g) -> self_supporting g S ->
  exists g',
    clean (Datatypes.S (length g)) g = Some g' /\
    self_supporting g' S /\
    forall s, In s S -> in_graph g' s.
Proof.
  intros Hk Hs.
  destruct (clean_returns (Datatypes.S (length g)) g (Nat.lt_succ_diag_r _))
    as (g' & Hc & _).
  exists g'. split; [exact Hc|].
  pose proof (clean_self_supporting S _ _ _ Hk Hs Hc) as Hs'.
  split; [exact Hs'|].
  intros s Hin. destruct (Hs' s Hin) as [(t & _ & Ht) _].
  unfold in_graph. unfold win_list in Ht.
  destruct (lookup g' s); [discriminate|destruct Ht].
Qed.

(** X15 on the graph of the default configuration and the cycle
    [(2,2,1,0) > (4,1,1,0) > (3,3,0,0) > (2,2,1,0)]. *)
Lemma clean_keeps_self_supporting_witness :
  let g := build (dice 3 0 4) in
  let S := [[2; 2; 1; 0]; [4; 1; 1; 0]; [3; 3; 0; 0]] in
  NoDup (keys g) /\ self_supporting g S /\
  exists g',
    clean (Datatypes.S (length g)) g = Some g' /\
    self_supporting g' S /\
    forall s, In s S -> in_graph g' s.
Proof.
  assert (Hk : NoDup (keys (build (dice 3 0 4)))) by apply build_keys_NoDup.
  pose proof default_cycle as Hs.
  split; [exact Hk|]. split; [exact Hs|].
  apply (clean_keeps_self_supporting _ _ Hk Hs).
Defined.

(** X16.  What is left after the reduction, on a graph with unique
    keys, lists without repeats and no die named without an entry: a
    die survives exactly when it belongs to some set of dice that
    support each other in the given graph. *)
Theorem clean_survivors (g : graph) :
  NoDup (keys g) -> no_repeats g -> closed g ->
  exists g',
    clean (Datatypes.S (length g)) g = Some g' /\
    forall s, in_graph g' s <-> exists S, In s S /\ self_supporting g S.
Proof.
  intros Hk Hr Hc.
  destruct (clean_returns (Datatypes.S (length g)) g (Nat.lt_succ_diag_r _))
    as (g' & Hcl & Hd).
  exists g'. split; [exact Hcl|].
  destruct (clean_tidy_graph _ _ _ Hk Hr Hc Hcl) as (Hk' & _ & Hc').
  apply to_delete_nil in Hd.
  intros s. split.
  - intros Hs. exists (keys g'). split; [apply in_graph_keys, Hs|].
    intros k Hin. apply in_graph_keys in Hin. unfold in_graph in Hin.
    destruct (lookup g' k) as [v|] eqn:E; [|congruence].
    destruct (Hd k v (lookup_In _ _ _ E)) as [Hw Hl].
    assert (Ew : win_list g' k = fst v) by (unfold win_list; rewrite E; reflexivity).
    assert (El : lose_list g' k = snd v) by (unfold lose_list; rewrite E; reflexivity).
    split.
    + destruct (fst v) as [|t w] eqn:Ef; [congruence|]. exists t.
      assert (Ht : In t (win_list g' k)) by (rewrite Ew; left; reflexivity).
      split; [apply in_graph_keys, (Hc' k t); left; exact Ht|].
      apply (clean_lists_incl _ _ _ Hk Hcl k t), Ht.
    + destruct (snd v) as [|t l] eqn:Ef; [congruence|]. exists t.
      assert (Ht : In t (lose_list g' k)) by (rewrite El; left; reflexivity).
      split; [apply in_graph_keys, (Hc' k t); right; exact Ht|].
      apply (clean_lists_incl _ _ _ Hk Hcl k t), Ht.
  - intros (S & Hin & Hs).
    destruct (clean_self_supporting S _ _ _ Hk Hs Hcl s Hin) as [(t & _ & Ht) _].
    unfold in_graph. unfold win_list in Ht.
    destruct (lookup g' s); [discriminate|destruct Ht].
Qed.

(** X16 on the graph built from the dice of the default configuration. *)
Lemma clean_survivors_witness :
  let g := build (dice 3 0 4) in
  NoDup (keys g) /\ no_repeats g /\ closed g /\
  exists g',
    clean (Datatypes.S (length g)) g = Some g' /\
    forall s, in_graph g' s <-> exists S, In s S /\ self_supporting g S.
Proof.
  assert (Hk : NoDup (keys (build (dice 3 0 4)))) by apply build_keys_NoDup.
  assert (Hr : no_repeats (build (dice 3 0 4))).
  { apply (during_build_no_repeats (dice 3 0 4)); [|apply build_during].
    apply ascending_NoDup, dice_ascending. }
  assert (Hc : closed (build (dice 3 0 4))) by apply build_closed.
  split; [exact Hk|]. split; [exact Hr|]. split; [exact Hc|].
  apply (clean_survivors _ Hk Hr Hc).
Defined.

(** X17.  The deletion loop never meets a missing key: the dice to
    delete are distinct keys of the dictionary, so when [del graph[die]]
    is reached for one of them, the earlier deletions have left it
    in place. *)
Theorem del_key_present (g : graph) :
  NoDup (keys g) ->
  NoDup (to_delete g) /\
  forall before d after, to_delete g = before ++ d :: after ->
    In d (keys (fold_left del before g)).
Proof.
  intros Hk.
  assert (Hnd : NoDup (to_delete g)) by (apply filter_keys_NoDup, Hk).
  split; [exact Hnd|].
  intros before d after E. apply keys_fold_del_other.
  - apply to_delete_keys. rewrite E. apply in_or_app. right; left; reflexivity.
  - rewrite E in Hnd. apply NoDup_remove_2 in Hnd.
    intros H. apply Hnd, in_or_app. left; exact H.
Qed.

(** X17 on the graph built from the dice of [min_value = 0,
    max_value = 1, sides = 2]. *)
Lemma del_key_present_witness :
  let g := build [[0; 0]; [1; 0]; [1; 1]] in
  NoDup (keys g) /\
  NoDup (to_delete g) /\
  forall before d after, to_delete g = before ++ d :: after ->
    In d (keys (fold_left del before g)).
Proof.
  assert (Hk : NoDup (keys (build [[0; 0]; [1; 0]; [1; 1]])))
    by apply build_keys_NoDup.
  split; [exact Hk|]. apply (del_key_present _ Hk).
Defined.

(** * Reporter *)

Lemma tuple_leb_le (a : die) : forall b, tuple_leb a b = true <-> tuple_le a b.
Proof.
  unfold tuple_le.
  induction a as [|x a IH]; intros [|y b]; simpl.
  - tauto.
  - tauto.
  - split; [discriminate|]. intros [[]|H]; discriminate.
  - rewrite orb_true_iff, andb_true_iff, Z.ltb_lt, Z.eqb_eq, IH. split.
    + intros [H|[-> [H| ->]]]; auto.
    + intros [[H|[-> H]]|[= -> ->]]; auto.
Qed.

Lemma tuple_leb_total (a : die) : forall b, tuple_leb a b = false -> lex_lt b a.
Proof.
  induction a as [|x a IH]; intros [|y b]; simpl; try discriminate; [trivial|].
  rewrite orb_false_iff, andb_false_iff, Z.ltb_ge, Z.eqb_neq.
  intros [Hge [Hne|Hle]]; [left; lia|].
  destruct (Z.eq_dec x y) as [->|Hne]; [|left; lia].
  right. split; [reflexivity|exact (IH _ Hle)].
Qed.

Lemma lex_lt_trans (a : die) : forall b c, lex_lt a b -> lex_lt b c -> lex_lt a c.
Proof.
  induction a as [|x a IH]; intros [|y b] [|z c]; simpl; try tauto.
  intros [H1|[-> H1]] [H2|[-> H2]]; try (left; lia).
  right. split; [reflexivity|exact (IH _ _ H1 H2)].
Qed.

Lemma tuple_le_trans (a b c : die) : tuple_le a b -> tuple_le b c -> tuple_le a c.
Proof.
  intros [H1| ->] [H2| ->]; unfold tuple_le; auto.
  left. exact (lex_lt_trans _ _ _ H1 H2).
Qed.

Lemma insert_sorted_perm (d : die) (l : list die) :
  Permutation (insert_sorted d l) (d :: l).
Proof.
  induction l as [|e l IH]; simpl; [apply Permutation_refl|].
  destruct (tuple_leb d e); [apply Permutation_refl|].
  apply perm_trans with (e :: d :: l); [apply perm_skip, IH|apply perm_swap].
Qed.

Lemma insert_sorted_sorted (d : die) (l : list die) :
  StronglySorted tuple_le l -> StronglySorted tuple_le (insert_sorted d l).
Proof.
  induction 1 as [|e l Hl IH He]; simpl; [repeat constructor|].
  destruct (tuple_leb d e) eqn:E.
  - apply tuple_leb_le in E. constructor; [constructor; assumption|].
    constructor; [exact E|].
    eapply Forall_impl; [|exact He]. intros x Hx. exact (tuple_le_trans _ _ _ E Hx).
  - apply tuple_leb_total in E. constructor; [exact IH|].
    apply Forall_forall. intros x Hx.
    apply (Permutation_in _ (insert_sorted_perm d l)) in Hx.
    destruct Hx as [<-|Hx]; [left; exact E|].
    rewrite Forall_forall in He. exact (He x Hx).
Qed.

(** The model of [sorted] returns the items in ascending tuple order. *)
Lemma sorted_perm (l : list die) : Permutation (sorted l) l.
Proof.
  induction l as [|d l IH]; simpl; [constructor|].
  eapply perm_trans; [apply insert_sorted_perm|apply perm_skip, IH].
Qed.

Lemma sorted_sorted (l : list die) : StronglySorted tuple_le (sorted l).
Proof.
  induction l as [|d l IH]; simpl; [constructor|].
  apply insert_sorted_sorted, IH.
Qed.

Lemma tuple_le_antisym (a b : die) : tuple_le a b -> tuple_le b a -> a = b.
Proof.
  intros [H1|H1] [H2|H2]; auto. destruct (lex_lt_asym _ _ H1 H2).
Qed.

(** Any way of putting the items in ascending tuple order gives the same
    list, so [sorted] stands for whatever method the builtin uses. *)
Lemma ascending_unique (l1 : list die) :
  forall l2, Permutation l1 l2 ->
    StronglySorted tuple_le l1 -> StronglySorted tuple_le l2 -> l1 = l2.
Proof.
  induction l1 as [|a l1 IH]; intros l2 Hp H1 H2.
  - apply Permutation_nil in Hp. congruence.
  - destruct l2 as [|b l2];
      [apply Permutation_sym, Permutation_nil in Hp; discriminate|].
    apply StronglySorted_inv in H1, H2.
    destruct H1 as [H1 Ha], H2 as [H2 Hb]. rewrite Forall_forall in Ha, Hb.
    assert (E : a = b).
    { apply tuple_le_antisym.
      - assert (Hin : In b (a :: l1))
          by (apply (Permutation_in _ (Permutation_sym Hp)); left; reflexivity).
        destruct Hin as [->|Hin]; [right; reflexivity|exact (Ha b Hin)].
      - assert (Hin : In a (b :: l2))
          by (apply (Permutation_in _ Hp); left; reflexivity).
        destruct Hin as [->|Hin]; [right; reflexivity|exact (Hb a Hin)]. }
    subst b. f_equal. apply IH; try assumption.
    exact (Permutation_cons_inv Hp).
Qed.

Lemma sorted_unique (l l' : list die) :
  Permutation l l' -> StronglySorted tuple_le l' -> l' = sorted l.
Proof.
  intros Hp Hs. apply ascending_unique; [|exact Hs|apply sorted_sorted].
  apply perm_trans with l; [apply Permutation_sym, Hp|].
  apply Permutation_sym, sorted_perm.
Qed.

Lemma In_sorted (l : list die) (x : die) : In x (sorted l) <-> In x l.
Proof.
  split; apply Permutation_in; [|apply Permutation_sym]; apply sorted_perm.
Qed.

Lemma sorted_NoDup (l : list die) : NoDup l -> NoDup (sorted l).
Proof. apply Permutation_NoDup, Permutation_sym, sorted_perm. Qed.

Lemma map_flat_map {A B C : Type} (f : B -> C) (g : A -> list B) (l : list A) :
  map f (flat_map g l) = flat_map (fun x => map f (g x)) l.
Proof.
  induction l as [|x l IH]; simpl; [reflexivity|].
  rewrite map_app, IH. reflexivity.
Qed.

Lemma report_of_pairs (g : graph) :
  report g
  = map (fun p => line (die_name (fst p)) (die_name (snd p))) (report_pairs g).
Proof.
  unfold report, report_pairs. rewrite map_flat_map.
  apply flat_map_ext. intros this. rewrite map_map. reflexivity.
Qed.

Lemma In_report_pairs (g : graph) (A B : die) :
  In (A, B) (report_pairs g) <-> in_graph g A /\ In B (win_list g A).
Proof.
  unfold report_pairs. rewrite in_flat_map, in_graph_keys. split.
  - intros (this & Hk & Hp). apply in_map_iff in Hp.
    destruct Hp as (oponent & [= -> ->] & Ho).
    split; [apply In_sorted, Hk|apply In_sorted, Ho].
  - intros [Hk Hw]. exists A. split; [apply In_sorted, Hk|].
    apply in_map_iff. exists B. split; [reflexivity|apply In_sorted, Hw].
Qed.

Lemma block_sorted (this : die) (l : list die) :
  StronglySorted tuple_le l ->
  StronglySorted pair_le (map (fun oponent => (this, oponent)) l).
Proof.
  induction 1 as [|e l Hl IH He]; simpl; constructor; [exact IH|].
  rewrite Forall_forall in *. intros p Hp. apply in_map_iff in Hp.
  destruct Hp as (o & <- & Ho). right. simpl. split; [reflexivity|exact (He o Ho)].
Qed.

Lemma sorted_strict (l : list die) :
  NoDup l -> StronglySorted tuple_le l -> StronglySorted lex_lt l.
Proof.
  intros Hnd Hs. induction Hs as [|d l Hl IH Hd]; [constructor|].
  apply NoDup_cons_iff in Hnd. destruct Hnd as [Hout Hnd].
  constructor; [exact (IH Hnd)|].
  rewrite Forall_forall in *. intros x Hx.
  destruct (Hd x Hx) as [H|H]; [exact H|]. subst x. contradiction.
Qed.

Lemma blocks_sorted (f : die -> list die) (l : list die) :
  StronglySorted lex_lt l ->
  (forall this, StronglySorted tuple_le (f this)) ->
  StronglySorted pair_le
    (flat_map (fun this => map (fun oponent => (this, oponent)) (f this)) l).
Proof.
  intros Hl Hf. induction Hl as [|d l Hl IH Hd]; simpl; [constructor|].
  apply sorted_app; [apply block_sorted, Hf|exact IH|].
  intros p q Hp Hq. apply in_map_iff in Hp. destruct Hp as (o & <- & Ho).
  apply in_flat_map in Hq. destruct Hq as (d' & Hd' & Hq).
  apply in_map_iff in Hq. destruct Hq as (o' & <- & Ho').
  rewrite Forall_forall in Hd. left. exact (Hd d' Hd').
Qed.

Lemma NoDup_blocks (f : die -> list die) (l : list die) :
  NoDup l -> (forall this, NoDup (f this)) ->
  NoDup (flat_map (fun this => map (fun oponent => (this, oponent)) (f this)) l).
Proof.
  intros Hl Hf. induction Hl as [|d l Hd Hl IH]; simpl; [constructor|].
  apply NoDup_app.
  - generalize (Hf d). generalize (f d) as w. clear.
    induction 1 as [|o w Ho Hw IH]; simpl; constructor; [|exact IH].
    intros Hin. apply in_map_iff in Hin. destruct Hin as (o' & [= ->] & Ho').
    exact (Ho Ho').
  - exact IH.
  - intros [a b] Ha Hb. apply in_map_iff in Ha. destruct Ha as (o & [= <- <-] & _).
    apply in_flat_map in Hb. destruct Hb as (d' & Hd' & Hb).
    apply in_map_iff in Hb. destruct Hb as (o' & [= <- _] & _).
    exact (Hd Hd').
Qed.

Lemma win_list_build_iff (dice : list die) (A B : die) :
  In B (win_list (build dice) A) <->
  In A dice /\ In B dice /\ is_best A B = true.
Proof.
  unfold build. rewrite build_from_pairs, win_list_build_pairs.
  rewrite in_map_iff. split.
  - intros ([a b] & <- & Hf). apply filter_In in Hf. simpl in *.
    destruct Hf as [Hin Hb]. apply in_prod_iff in Hin.
    destruct (die_eq_dec a A) as [<-|]; [tauto|discriminate].
  - intros (HA & HB & Hb). exists (A, B). split; [reflexivity|].
    apply filter_In. split; [apply in_prod_iff; tauto|]. simpl.
    destruct (die_eq_dec A A); [exact Hb|congruence].
Qed.

Lemma clean_keys_incl (fuel : nat) :
  forall g g' k, NoDup (keys g) -> clean fuel g = Some g' ->
    in_graph g' k -> in_graph g k.
Proof.
  induction fuel as [|fuel IH]; intros g g' k Hk Hc Hin; [discriminate|].
  simpl in Hc. destruct (is_empty (to_delete g)).
  - injection Hc as <-. exact Hin.
  - apply (IH _ _ _ (keys_pass_NoDup _ Hk) Hc) in Hin.
    apply in_graph_pass in Hin; [tauto|exact Hk].
Qed.

(** A recorded win between two dice that both survive is still recorded. *)
Lemma clean_keeps_edges (fuel : nat) :
  forall g g' s t, NoDup (keys g) -> clean fuel g = Some g' ->
    in_graph g' s -> in_graph g' t ->
    In t (win_list g s) -> In t (win_list g' s).
Proof.
  induction fuel as [|fuel IH]; intros g g' s t Hk Hc Hs Ht Hin; [discriminate|].
  simpl in Hc. destruct (is_empty (to_delete g)).
  - injection Hc as <-. exact Hin.
  - pose proof (keys_pass_NoDup _ Hk) as Hk'.
    pose proof (clean_keys_incl _ _ _ s Hk' Hc Hs) as Hs1.
    pose proof (clean_keys_incl _ _ _ t Hk' Hc Ht) as Ht1.
    apply in_graph_pass in Hs1, Ht1; try exact Hk.
    apply (IH _ _ s t Hk' Hc Hs Ht).
    rewrite win_list_pass by tauto. apply In_fold_discard; tauto.
Qed.

Lemma main_graph_fuel_mono (fuel fuel' : nat) (g : graph) :
  main_graph fuel = Some g -> (fuel <= fuel')%nat -> main_graph fuel' = Some g.
Proof.
  unfold main_graph. intros H Hle.
  destruct (die_generator fuel MIN_VALUE MAX_VALUE SIDES) as [ds|] eqn:E;
    [|discriminate].
  rewrite (die_generator_fuel_mono _ _ _ _ _ _ E Hle).
  exact (clean_fuel_mono _ _ _ _ H Hle).
Qed.

(** A face between [0] and [9] is written as one character, which tells
    the face. *)
Lemma str_digit (x : Z) :
  0 <= x <= 9 ->
  exists c, str x = String c EmptyString /\ x = Z.of_nat (nat_of_ascii c) - 48.
Proof.
  intros H.
  assert (Hx : x = 0 \/ x = 1 \/ x = 2 \/ x = 3 \/ x = 4 \/
               x = 5 \/ x = 6 \/ x = 7 \/ x = 8 \/ x = 9) by lia.
  repeat (destruct Hx as [->|Hx]); try subst x;
    eexists; split; reflexivity.
Qed.

Lemma die_name_digits (d : die) :
  within 0 9 d ->
  forall e, within 0 9 e -> die_name d = die_name e -> d = e.
Proof.
  induction 1 as [|x d Hx Hd IH]; intros e He E.
  - destruct He as [|y e Hy He]; [reflexivity|].
    destruct (str_digit y Hy) as (c & Ec & _).
    unfold die_name in E. simpl in E. rewrite Ec in E. discriminate.
  - destruct He as [|y e Hy He].
    + destruct (str_digit x Hx) as (c & Ec & _).
      unfold die_name in E. simpl in E. rewrite Ec in E. discriminate.
    + destruct (str_digit x Hx) as (cx & Ex & Vx).
      destruct (str_digit y Hy) as (cy & Ey & Vy).
      unfold die_name in E. simpl in E. rewrite Ex, Ey in E. simpl in E.
      injection E as Ec Et. f_equal; [congruence|].
      apply IH; assumption.
Qed.

(** X18.  The printing loops write one line per recorded win of each
    die of the graph: the pairs visited are exactly the pairs of a key
    and a die of its win list, and the line of a pair is the two names
    around [" > "]. *)
Theorem report_lines (g : graph) :
  report g
  = map (fun p => line (die_name (fst p)) (die_name (snd p))) (report_pairs g) /\
  forall A B, In (A, B) (report_pairs g) <-> in_graph g A /\ In B (win_list g A).
Proof.
  split; [apply report_of_pairs|]. intros A B. apply In_report_pairs.
Qed.

(** X19.  On a dictionary the lines come in ascending order of the
    winning die, and under one winning die in ascending order of the
    beaten die. *)
Theorem report_order (g : graph) :
  NoDup (keys g) -> StronglySorted pair_le (report_pairs g).
Proof.
  intros Hk. unfold report_pairs. apply blocks_sorted.
  - apply sorted_strict; [apply sorted_NoDup, Hk|apply sorted_sorted].
  - intros this. apply sorted_sorted.
Qed.

(** X19 on the graph built from the dice of [min_value = 0,
    max_value = 1, sides = 2]. *)
Lemma report_order_witness :
  NoDup (keys (build [[0; 0]; [1; 0]; [1; 1]])) /\
  StronglySorted pair_le (report_pairs (build [[0; 0]; [1; 0]; [1; 1]])).
Proof.
  assert (Hk : NoDup (keys (build [[0; 0]; [1; 0]; [1; 1]])))
    by apply build_keys_NoDup.
  split; [exact Hk|]. apply (report_order _ Hk).
Defined.

(** X20.  From generation to printing, for every configuration with
    [sides >= 1]: the program visits, each once, exactly the pairs
    [(A, B)] of dice that both survive the reduction and for which
    [is_best A B] holds. *)
Theorem printed_pairs (min_value max_value sides : Z) :
  1 <= sides ->
  exists dice g',
    die_generator (Z.to_nat sides) min_value max_value sides = Some dice /\
    clean (S (length (build dice))) (build dice) = Some g' /\
    NoDup (report_pairs g') /\
    forall A B, In (A, B) (report_pairs g') <->
      in_graph g' A /\ in_graph g' B /\ is_best A B = true.
Proof.
  intros Hs. set (ds := dice (Z.to_nat (sides - 1)) min_value max_value).
  assert (Hds : NoDup ds) by apply ascending_NoDup, dice_ascending.
  destruct (clean_returns (S (length (build ds))) (build ds)
              (Nat.lt_succ_diag_r _)) as (g' & Hc & _).
  exists ds, g'. split; [apply die_generator_dice; lia|]. split; [exact Hc|].
  pose proof (build_keys_NoDup ds) as Hk.
  assert (Hr : no_repeats (build ds))
    by (apply (during_build_no_repeats ds); [exact Hds|apply build_during]).
  destruct (clean_tidy_graph _ _ _ Hk Hr (build_closed ds) Hc) as (Hk' & Hr' & Hc').
  split.
  - unfold report_pairs. apply NoDup_blocks; [apply sorted_NoDup, Hk'|].
    intros this. apply sorted_NoDup. unfold win_list.
    destruct (lookup g' this) as [v|] eqn:E; [|constructor].
    exact (proj1 (Hr' this v (lookup_In _ _ _ E))).
  - intros A B. rewrite In_report_pairs. split.
    + intros [HA HB]. split; [exact HA|]. split.
      * apply (Hc' A B). left; exact HB.
      * apply (clean_lists_incl _ _ _ Hk Hc A B) in HB.
        apply win_list_build_iff in HB. tauto.
    + intros (HA & HB & Hb). split; [exact HA|].
      apply (clean_keeps_edges _ _ _ A B Hk Hc HA HB).
      apply win_list_build_iff.
      apply (clean_keys_incl _ _ _ A Hk Hc) in HA.
      apply (clean_keys_incl _ _ _ B Hk Hc) in HB.
      apply in_graph_keys in HA, HB.
      assert (Hin : forall k, In k (keys (build ds)) -> In k ds).
      { intros k Hin. apply in_graph_keys in Hin. revert Hin.
        unfold build. rewrite build_from_pairs, in_graph_build_pairs.
        intros (a & b & Hp & _ & [<-|<-]); apply in_prod_iff in Hp; tauto. }
      split; [exact (Hin A HA)|]. split; [exact (Hin B HB)|exact Hb].
Qed.

(** X20 on the default configuration. *)
Lemma printed_pairs_witness :
  1 <= SIDES /\
  exists dice g',
    die_generator (Z.to_nat SIDES) MIN_VALUE MAX_VALUE SIDES = Some dice /\
    clean (S (length (build dice))) (build dice) = Some g' /\
    NoDup (report_pairs g') /\
    forall A B, In (A, B) (report_pairs g') <->
      in_graph g' A /\ in_graph g' B /\ is_best A B = true.
Proof.
  split; [unfold SIDES; lia|].
  apply (printed_pairs MIN_VALUE MAX_VALUE SIDES). unfold SIDES; lia.
Defined.

(** X21.  When every face lies between [0] and [9], as with the default
    values, a die is told by its printed name: two different such dice
    have different names. *)
Theorem die_name_injective (d e : die) :
  within 0 9 d -> within 0 9 e -> d <> e -> die_name d <> die_name e.
Proof.
  intros Hd He Hne E. apply Hne. exact (die_name_digits d Hd e He E).
Qed.

(** X21 on [(4,4,0,0)] and [(3,3,3,1)]. *)
Lemma die_name_injective_witness :
  within 0 9 [4; 4; 0; 0] /\ within 0 9 [3; 3; 3; 1] /\
  [4; 4; 0; 0] <> [3; 3; 3; 1] /\
  die_name [4; 4; 0; 0] <> die_name [3; 3; 3; 1].
Proof.
  assert (H1 : within 0 9 [4; 4; 0; 0]) by (repeat constructor; lia).
  assert (H2 : within 0 9 [3; 3; 3; 1]) by (repeat constructor; lia).
  assert (H3 : [4; 4; 0; 0] <> [3; 3; 3; 1]) by discriminate.
  split; [exact H1|]. split; [exact H2|]. split; [exact H3|].
  apply (die_name_injective _ _ H1 H2 H3).
Defined.

Lemma In_report (g : graph) (A B : die) :
  in_graph g A -> In B (win_list g A) ->
  In (line (die_name A) (die_name B)) (report g).
Proof.
  intros HA HB. rewrite report_of_pairs. apply in_map_iff.
  exists (A, B). split; [reflexivity|]. apply In_report_pairs. tauto.
Qed.

Lemma main_graph_eq (fuel : nat) :
  main_graph fuel
  = match die_generator fuel MIN_VALUE MAX_VALUE SIDES with
    | Some dice => clean fuel (build dice)
    | None => None
    end.
Proof. reflexivity. Qed.

Lemma default_dice :
  dice (Z.to_nat (SIDES - 1)) MIN_VALUE MAX_VALUE = dice 3 0 4.
Proof. reflexivity. Qed.

(** X22.  The program itself, on its default values: [main] returns,
    and among the lines it prints are the three of the cycle
    [2210 > 4110 > 3300 > 2210], so its output shows dice that beat each
    other in a circle. *)
Theorem main_prints_cycle :
  exists lines,
    (forall fuel, (71 <= fuel)%nat -> main fuel = Some lines) /\
    In "2210 > 4110"%string lines /\
    In "4110 > 3300"%string lines /\
    In "3300 > 2210"%string lines.
Proof.
  destruct main_graph_returns as (g & Hg & _).
  exists (report g). split.
  - intros fuel Hle. unfold main.
    rewrite (main_graph_fuel_mono _ _ _ Hg Hle). reflexivity.
  - rewrite main_graph_eq in Hg.
    rewrite die_generator_dice in Hg by (unfold SIDES; lia).
    rewrite default_dice in Hg.
    pose proof (clean_self_supporting _ _ _ _
                  (build_keys_NoDup (dice 3 0 4)) default_cycle Hg) as Hs.
    assert (Hin : forall s, In s [[2; 2; 1; 0]; [4; 1; 1; 0]; [3; 3; 0; 0]] ->
                            in_graph g s).
    { intros s Hs0. destruct (Hs s Hs0) as [(t & _ & Ht) _].
      unfold in_graph. unfold win_list in Ht.
      destruct (lookup g s); [discriminate|destruct Ht]. }
    assert (Hw : forall s t,
               In s [[2; 2; 1; 0]; [4; 1; 1; 0]; [3; 3; 0; 0]] ->
               In t [[2; 2; 1; 0]; [4; 1; 1; 0]; [3; 3; 0; 0]] ->
               is_best s t = true -> In t (win_list g s)).
    { intros s t Hs0 Ht0 Hb.
      apply (clean_keeps_edges _ _ _ s t (build_keys_NoDup (dice 3 0 4)) Hg);
        [apply Hin, Hs0|apply Hin, Ht0|].
      apply (proj2 (win_list_build_iff (dice 3 0 4) s t)).
      assert (Hd : forall k,
                 In k [[2; 2; 1; 0]; [4; 1; 1; 0]; [3; 3; 0; 0]] ->
                 In k (dice 3 0 4)).
      { intros k [<-|[<-|[<-|[]]]]; vm_compute;
          repeat (first [left; reflexivity|right]). }
      split; [apply Hd, Hs0|]. split; [apply Hd, Ht0|exact Hb]. }
    split; [|split].
    + apply (In_report g [2; 2; 1; 0] [4; 1; 1; 0]);
        [apply Hin|apply Hw; [| |reflexivity]]; simpl; tauto.
    + apply (In_report g [4; 1; 1; 0] [3; 3; 0; 0]);
        [apply Hin|apply Hw; [| |reflexivity]]; simpl; tauto.
    + apply (In_report g [3; 3; 0; 0] [2; 2; 1; 0]);
        [apply Hin|apply Hw; [| |reflexivity]]; simpl; tauto.
Qed.
